(** * Licenser: path-set classification, pruning and traversal

    A shallow embedding of [src/licenser.py].  The [PathSet] class is
    embedded as a record of three finite sets living in a heap of objects,
    its methods as computations in a state-and-exception monad over that
    heap, and the operating-system interface ([os.path], [pathlib]) as a
    type class of operations. *)

From Stdlib Require Import Ascii String.
From stdpp Require Import gmap strings list pretty sorting.

Local Open Scope string_scope.
Local Open Scope nat_scope.
Local Open Scope list_scope.

Set Warnings "-clear-no-such-hyp".


(** ** Python string operations *)

(** [str_in needle hay] is Python's [needle in hay] on [str] values: it
    tests whether [needle] occurs in [hay] as a contiguous substring. *)
Fixpoint str_in (needle hay : string) : bool :=
  String.prefix needle hay ||
  match hay with
  | EmptyString => false
  | String _ rest => str_in needle rest
  end.

(** The last character of a string, [s[-1]]; Python raises [IndexError] on
    the empty string, which is [None] here. *)
Fixpoint str_last (s : string) : option ascii :=
  match s with
  | EmptyString => None
  | String c rest =>
      match rest with
      | EmptyString => Some c
      | String _ _ => str_last rest
      end
  end.

(** [source[-1] == os.sep] on a POSIX system. *)
Definition ends_with_sep (source : string) : bool :=
  bool_decide (str_last source = Some "/"%char).

(** The declarative reading of [str_in]. *)
Definition substring_of (needle hay : string) : Prop :=
  ∃ pre post, hay = pre +:+ needle +:+ post.

(** ** The operating-system interface

    Paths are [pathlib.Path] objects in the source.  On a POSIX system two
    such objects are equal exactly when their string forms are, so a path
    is embedded as its string form [str(path)]. *)
Class Posix := {
  (** [os.path.expandvars] *)
  expandvars : string → string;
  (** [str(pathlib.Path(s))]: the string form of the path built from [s] *)
  Path : string → string;
  (** [Path.is_dir()], [os.path.isdir] *)
  is_dir : string → bool;
  (** [Path.is_file()], [os.path.isfile] *)
  is_file : string → bool;
  (** [os.path.exists] *)
  path_exists : string → bool;
  (** [Path.iterdir()], [None] when it raises (not a directory, missing) *)
  iterdir : string → option (list string);
  (** [Path.glob(pattern)], [None] when it raises (unacceptable pattern) *)
  glob : string → string → option (list string);
  (** [Path.expanduser()], [None] when it raises [RuntimeError]: the path
      starts with [~user] and no home directory is known for that user *)
  expanduser : string → option string;
  (** [Path.resolve()]; without [strict] it accepts a path that does not
      exist *)
  path_resolve : string → string;
  (** The order in which this run of the interpreter iterates over a set:
      it depends on the hash values of the process, and is some
      enumeration of the members without repetition. *)
  iter_set : gset string → list string;
  iter_set_perm : ∀ members, iter_set members ≡ₚ elements members;
}.

(** ** Objects, heap and the monad of computations *)

Record PathSet := mkPathSet {
  dirs : gset string;
  files : gset string;
  globs : gset string;
}.

Definition empty_PathSet : PathSet := mkPathSet ∅ ∅ ∅.

(** The exceptions the program can raise.  The two [Exception]s raised by
    [validate_paths] differ by their message only; they are kept apart
    here as [PathNotFound] ("path does not exists") and [PathKind] ("path
    does not represents a valid object"). *)
Inductive exn :=
  | PathNotFound (path : string)
  | PathKind (path : string)
  | DirError (path : string)        (* raised by [Path.iterdir] *)
  | GlobError (pattern : string)    (* raised by [Path.glob] *)
  | HomeError                       (* [RuntimeError] of [Path.expanduser] *)
  | DanglingRef (l : nat).          (* no such object; unreachable from Python *)

(** A program state: the heap of [PathSet] objects, addressed by their
    index, and the sequence of paths a generator has yielded so far. *)
Record state := mkState {
  heap : list PathSet;
  out : list string;
}.

Inductive result (A : Type) :=
  | Ok (a : A) (st : state)
  | Raise (e : exn) (st : state)
  | OutOfFuel.
Arguments Ok {A} a st.
Arguments Raise {A} e st.
Arguments OutOfFuel {A}.

Definition M (A : Type) : Type := state → result A.

Global Instance M_ret : MRet M := λ A a st, Ok a st.
Global Instance M_bind : MBind M := λ A B f m st,
  match m st with
  | Ok a st' => f a st'
  | Raise e st' => Raise e st'
  | OutOfFuel => OutOfFuel
  end.

Definition raise {A} (e : exn) : M A := λ st, Raise e st.
Definition out_of_fuel {A} : M A := λ _, OutOfFuel.

Definition load (l : nat) : M PathSet := λ st,
  match heap st !! l with
  | Some ps => Ok ps st
  | None => Raise (DanglingRef l) st
  end.

Definition store (l : nat) (ps : PathSet) : M unit := λ st,
  Ok tt (mkState (<[l := ps]> (heap st)) (out st)).

Definition alloc (ps : PathSet) : M nat := λ st,
  Ok (length (heap st)) (mkState (heap st ++ [ps]) (out st)).

Definition yield (path : string) : M unit := λ st,
  Ok tt (mkState (heap st) (out st ++ [path])).

(** [for x in xs: body(x)] *)
Fixpoint for_each {A} (xs : list A) (body : A → M unit) : M unit :=
  match xs with
  | [] => mret tt
  | x :: xs => body x ;; for_each xs body
  end.

(** [yield from xs] *)
Definition yield_from (xs : list string) : M unit := for_each xs yield.

(** Library calls that may raise. *)
Definition do_iterdir `{Posix} (path : string) : M (list string) :=
  match iterdir path with
  | Some children => mret children
  | None => raise (DirError path)
  end.

Definition do_glob `{Posix} (path pattern : string) : M (list string) :=
  match glob path pattern with
  | Some matches => mret matches
  | None => raise (GlobError pattern)
  end.

(** ** The [PathSet] class *)

Section PathSet_methods.
Context `{Posix}.

(** [PathSet.add]: one iteration of the loop over the sources.  The test
    [source[-1] == os.sep] is only reached when ['.' in source], hence on
    a non-empty string. *)
Definition add_one (self : nat) (source : string) : M unit :=
  let source := expandvars source in
  if str_in "*" source then
    ps ← load self;
    store self (mkPathSet (dirs ps) (files ps) (globs ps ∪ {[source]}))
  else
    let path := Path source in
    if is_dir path
       || (negb (is_file path)
           && (negb (str_in "." source) || ends_with_sep source))
    then
      ps ← load self;
      store self (mkPathSet (dirs ps ∪ {[path]}) (files ps) (globs ps))
    else
      ps ← load self;
      store self (mkPathSet (dirs ps) (files ps ∪ {[path]}) (globs ps)).

(** [PathSet.add(self, sources)], [sources] being the list
    [ensure_iterable] makes of the argument. *)
Definition add (self : nat) (sources : list string) : M unit :=
  for_each sources (add_one self).

(** [PathSet.__init__] *)
Definition PathSet_init (sources : list string) : M nat :=
  self ← alloc empty_PathSet;
  add self sources;;
  mret self.

(** The three accumulators of [PathSet.prune], as its loops fill them. *)
Definition prune_scan {A} (test : A → string → bool) (prune_path : A)
    (sources : list string) (acc : gset string) : gset string :=
  foldl (λ acc source_path,
           if test prune_path source_path then acc ∪ {[source_path]} else acc)
        acc sources.

Definition prune_by_dirs (self_ps prune_ps : PathSet)
    : gset string * gset string :=
  foldl (λ '(prune_from_dirs, prune_from_files) prune_path,
           (prune_scan str_in prune_path (iter_set (dirs self_ps)) prune_from_dirs,
            prune_scan str_in prune_path (iter_set (files self_ps)) prune_from_files))
        (∅, ∅) (iter_set (dirs prune_ps)).

Definition prune_by_files (self_ps prune_ps : PathSet)
    (prune_from_files : gset string) : gset string :=
  foldl (λ prune_from_files prune_path,
           prune_scan (λ p s, bool_decide (p = s)) prune_path
                      (iter_set (files self_ps)) prune_from_files)
        prune_from_files (iter_set (files prune_ps)).

Definition prune_by_globs (self_ps prune_ps : PathSet) : gset string :=
  foldl (λ prune_from_globs prune_glob,
           prune_scan (λ p s, bool_decide (p = s)) prune_glob
                      (iter_set (globs self_ps)) prune_from_globs)
        ∅ (iter_set (globs prune_ps)).

(** [PathSet.prune(self, prune_ps)] *)
Definition prune (self prune_ps : nat) : M unit :=
  self_ps ← load self;
  other_ps ← load prune_ps;
  let '(prune_from_dirs, prune_from_files) := prune_by_dirs self_ps other_ps in
  let prune_from_files := prune_by_files self_ps other_ps prune_from_files in
  let prune_from_globs := prune_by_globs self_ps other_ps in
  ps ← load self;
  store self (mkPathSet (dirs ps ∖ prune_from_dirs) (files ps) (globs ps));;
  ps ← load self;
  store self (mkPathSet (dirs ps) (files ps ∖ prune_from_files) (globs ps));;
  ps ← load self;
  store self (mkPathSet (dirs ps) (files ps) (globs ps ∖ prune_from_globs)).

(** [PathSet.validate_paths]: the first offending path, in iteration
    order, decides which exception is raised. *)
Definition validate_paths (paths : list string) : M unit :=
  for_each paths (λ path,
    if negb (path_exists path) then raise (PathNotFound path)
    else if negb (is_dir path) && negb (is_file path) then raise (PathKind path)
    else mret tt).

(** [PathSet.validate] *)
Definition validate (self : nat) : M unit :=
  ps ← load self;
  validate_paths (iter_set (dirs ps));;
  ps ← load self;
  validate_paths (iter_set (files ps)).

(** [pathlib.Path(path).expanduser().resolve()]; [path] is a [Path]
    object wherever the program gets here, and [pathlib.Path(path)] is
    the identity on those. *)
Definition resolve_path (path : string) : option string :=
  path_resolve <$> expanduser path.

(** [PathSet.resolve_paths]: the set of the resolved paths, [None] when
    [expanduser] raises for one of them. *)
Definition resolve_paths (paths : gset string) : option (gset string) :=
  list_to_set <$> mapM resolve_path (iter_set paths).

Definition do_resolve_paths (paths : gset string) : M (gset string) :=
  match resolve_paths paths with
  | Some resolved => mret resolved
  | None => raise HomeError
  end.

(** [PathSet.resolve] *)
Definition resolve (self : nat) : M unit :=
  ps ← load self;
  resolved ← do_resolve_paths (dirs ps);
  store self (mkPathSet resolved (files ps) (globs ps));;
  ps ← load self;
  resolved ← do_resolve_paths (files ps);
  store self (mkPathSet (dirs ps) resolved (globs ps)).

(** The loop of [PathSet.resolve_globs]: [paths |= set(path.glob(glob))]. *)
Fixpoint glob_union (path : string) (globs : list string)
    (paths : gset string) : M (gset string) :=
  match globs with
  | [] => mret paths
  | glob :: globs =>
      matches ← do_glob path glob;
      glob_union path globs (paths ∪ list_to_set matches)
  end.

(** [PathSet.resolve_globs] *)
Definition resolve_globs (path : string) (globs : gset string)
    : M (gset string) :=
  paths ← glob_union path (iter_set globs) ∅;
  do_resolve_paths paths.

(** The body of the loop over the directories of [_traverse], [below]
    being the recursive call on the working set built for [source_path]. *)
Definition visit (below : nat → M unit) (source_ps prune_ps : nat)
    (source_path : string) : M unit :=
  ps ← load source_ps;
  s ← PathSet_init (iter_set (globs ps));
  children ← do_iterdir source_path;
  add s (filter (λ path, is_dir path = true) children);;
  ps ← load source_ps;
  matches ← resolve_globs source_path (globs ps);
  add s (iter_set matches);;
  pr ← load prune_ps;
  matches ← resolve_globs source_path (globs pr);
  add prune_ps (iter_set matches);;
  below s.

(** The inner generator [_traverse] of [PathSet.traverse].  [fuel] bounds
    the depth of nested calls, as the interpreter's recursion limit does;
    every value it yields is appended to [out]. *)
Fixpoint _traverse (fuel : nat) (source_ps prune_ps : nat)
    (recurse : bool) (depth : nat) : M unit :=
  match fuel with
  | 0 => out_of_fuel
  | S fuel =>
      prune source_ps prune_ps;;
      ps ← load source_ps;
      yield_from (iter_set (files ps));;
      if negb recurse && bool_decide (0 < depth) then mret tt
      else
        ps ← load source_ps;
        for_each (iter_set (dirs ps))
          (visit (λ s, _traverse fuel s prune_ps recurse (S depth))
                 source_ps prune_ps)
  end.

(** [copy.deepcopy] of a [PathSet]: a new object with equal sets. *)
Definition deepcopy (l : nat) : M nat :=
  ps ← load l;
  alloc ps.

(** The two default-fill steps of [PathSet.traverse]. *)
Definition fill_pwd (source_ps : nat) : M unit :=
  ps ← load source_ps;
  if bool_decide (size (files ps) = 0) && bool_decide (size (dirs ps) = 0)
  then add source_ps ["."]
  else mret tt.

Definition fill_all (source_ps : nat) : M unit :=
  ps ← load source_ps;
  if bool_decide (size (files ps) = 0) && bool_decide (size (globs ps) = 0)
  then add source_ps ["*"]
  else mret tt.

(** [PathSet.traverse(self, prune_ps, recurse=...)], consumed to its end. *)
Definition traverse (fuel : nat) (self prune_ps : nat) (recurse : bool)
    : M unit :=
  source_ps ← deepcopy self;
  prune_ps ← deepcopy prune_ps;
  fill_pwd source_ps;;
  fill_all source_ps;;
  resolve source_ps;;
  validate source_ps;;
  resolve prune_ps;;
  _traverse fuel source_ps prune_ps recurse 0.

End PathSet_methods.

(** ** The license mutation

    File contents live in a map from canonical path to text;
    [Path.read_text] of a path without an entry raises. *)
Section License.
Context `{Posix}.

Definition read_text (disk : gmap string string) (path : string)
    : option string :=
  disk !! path_resolve path.

Definition write_text (disk : gmap string string) (path text : string)
    : gmap string string :=
  <[path_resolve path := text]> disk.

(** The loop of [add_license]; the Boolean tells whether it ran to its end
    ([true]) or stopped at a file it could not read ([false]). *)
Fixpoint add_license_loop (license_text : string) (files : list string)
    (disk : gmap string string) : gmap string string * bool :=
  match files with
  | [] => (disk, true)
  | file :: files =>
      match read_text disk file with
      | None => (disk, false)
      | Some file_text =>
          if negb (str_in license_text file_text)
          then add_license_loop license_text files
                 (write_text disk file (license_text +:+ file_text))
          else add_license_loop license_text files disk
      end
  end.

(** [add_license(license, files)] *)
Definition add_license (license : string) (files : list string)
    (disk : gmap string string) : gmap string string * bool :=
  match read_text disk license with
  | None => (disk, false)
  | Some license_text => add_license_loop license_text files disk
  end.

End License.

(** ** A functional reading of the methods

    Each method above acts on the heap.  The functions below compute, from
    the values of the objects involved, the value a method leaves in the
    object it mutates; the run lemmas further down show that the methods
    do exactly this, and nothing else, to the heap. *)

Section Functional.
Context `{Posix}.

Definition add_one_pure (ps : PathSet) (source : string) : PathSet :=
  let source := expandvars source in
  if str_in "*" source then
    mkPathSet (dirs ps) (files ps) (globs ps ∪ {[source]})
  else
    let path := Path source in
    if is_dir path
       || (negb (is_file path)
           && (negb (str_in "." source) || ends_with_sep source))
    then mkPathSet (dirs ps ∪ {[path]}) (files ps) (globs ps)
    else mkPathSet (dirs ps) (files ps ∪ {[path]}) (globs ps).

Definition add_pure (ps : PathSet) (sources : list string) : PathSet :=
  foldl add_one_pure ps sources.

Definition prune_pure (self_ps prune_ps : PathSet) : PathSet :=
  mkPathSet
    (dirs self_ps ∖ (prune_by_dirs self_ps prune_ps).1)
    (files self_ps ∖
       prune_by_files self_ps prune_ps (prune_by_dirs self_ps prune_ps).2)
    (globs self_ps ∖ prune_by_globs self_ps prune_ps).


Fixpoint validate_paths_pure (paths : list string) : option exn :=
  match paths with
  | [] => None
  | path :: paths =>
      if negb (path_exists path) then Some (PathNotFound path)
      else if negb (is_dir path) && negb (is_file path) then Some (PathKind path)
      else validate_paths_pure paths
  end.

Definition validate_pure (ps : PathSet) : option exn :=
  match validate_paths_pure (iter_set (dirs ps)) with
  | Some e => Some e
  | None => validate_paths_pure (iter_set (files ps))
  end.

Definition resolve_pure (ps : PathSet) : option PathSet :=
  resolved_dirs ← resolve_paths (dirs ps);
  resolved_files ← resolve_paths (files ps);
  Some (mkPathSet resolved_dirs resolved_files (globs ps)).

Fixpoint glob_union_pure (path : string) (globs : list string)
    (paths : gset string) : exn + gset string :=
  match globs with
  | [] => inr paths
  | pattern :: globs =>
      match glob path pattern with
      | None => inl (GlobError pattern)
      | Some matches =>
          glob_union_pure path globs (paths ∪ list_to_set matches)
      end
  end.

Definition resolve_globs_pure (path : string) (globs : gset string)
    : exn + gset string :=
  match glob_union_pure path (iter_set globs) ∅ with
  | inl e => inl e
  | inr paths =>
      match resolve_paths paths with
      | Some resolved => inr resolved
      | None => inl HomeError
      end
  end.

(** The working set [s] that [_traverse] builds for the directory
    [source_path] of the working set [source_ps]. *)
Definition child_set (source_ps : PathSet) (source_path : string)
    : exn + PathSet :=
  let s := add_pure empty_PathSet (iter_set (globs source_ps)) in
  match iterdir source_path with
  | None => inl (DirError source_path)
  | Some children =>
      let s := add_pure s (filter (λ path, is_dir path = true) children) in
      match resolve_globs_pure source_path (globs source_ps) with
      | inl e => inl e
      | inr matches => inr (add_pure s (iter_set matches))
      end
  end.

(** What visiting [source_path] adds to the prune set. *)
Definition prune_grow (prune_ps : PathSet) (source_path : string)
    : exn + PathSet :=
  match resolve_globs_pure source_path (globs prune_ps) with
  | inl e => inl e
  | inr matches => inr (add_pure prune_ps (iter_set matches))
  end.

(** The outcome of a walk: the paths yielded, with the prune set it ends
    in, or with the exception that stopped it. *)
Inductive walk :=
  | Walked (ys : list string) (prune_ps : PathSet)
  | Failed (ys : list string) (e : exn)
  | Starved.

Definition after_yield (ys : list string) (w : walk) : walk :=
  match w with
  | Walked zs prune_ps => Walked (ys ++ zs) prune_ps
  | Failed zs e => Failed (ys ++ zs) e
  | Starved => Starved
  end.

Fixpoint walk_dirs (visit : string → PathSet → walk) (ds : list string)
    (prune_ps : PathSet) : walk :=
  match ds with
  | [] => Walked [] prune_ps
  | d :: ds =>
      match visit d prune_ps with
      | Walked ys prune_ps => after_yield ys (walk_dirs visit ds prune_ps)
      | w => w
      end
  end.

(** One iteration of the loop over the directories, given the walk of the
    level below. *)
Definition visit_dir (below : PathSet → PathSet → walk) (source_ps : PathSet)
    (source_path : string) (prune_ps : PathSet) : walk :=
  match child_set source_ps source_path with
  | inl e => Failed [] e
  | inr s =>
      match prune_grow prune_ps source_path with
      | inl e => Failed [] e
      | inr prune_ps => below s prune_ps
      end
  end.

Fixpoint _traverse_pure (fuel : nat) (source_ps prune_ps : PathSet)
    (recurse : bool) (depth : nat) : walk :=
  match fuel with
  | 0 => Starved
  | S fuel =>
      let source_ps := prune_pure source_ps prune_ps in
      after_yield (iter_set (files source_ps))
        (if negb recurse && bool_decide (0 < depth) then Walked [] prune_ps
         else walk_dirs
                (visit_dir (λ s prune_ps,
                              _traverse_pure fuel s prune_ps recurse (S depth))
                           source_ps)
                (iter_set (dirs source_ps)) prune_ps)
  end.

Definition fill_pwd_pure (ps : PathSet) : PathSet :=
  if bool_decide (size (files ps) = 0) && bool_decide (size (dirs ps) = 0)
  then add_pure ps ["."] else ps.

Definition fill_all_pure (ps : PathSet) : PathSet :=
  if bool_decide (size (files ps) = 0) && bool_decide (size (globs ps) = 0)
  then add_pure ps ["*"] else ps.

(** The working copy of the source set once [traverse] has filled in the
    defaults and resolved it. *)
Definition prepare (self_ps : PathSet) : option PathSet :=
  resolve_pure (fill_all_pure (fill_pwd_pure self_ps)).

Definition traverse_pure (fuel : nat) (self_ps prune_ps : PathSet)
    (recurse : bool) : walk :=
  match prepare self_ps with
  | None => Failed [] HomeError
  | Some source_ps =>
      match validate_pure source_ps with
      | Some e => Failed [] e
      | None =>
          match resolve_pure prune_ps with
          | None => Failed [] HomeError
          | Some prune_ps => _traverse_pure fuel source_ps prune_ps recurse 0
          end
      end
  end.

End Functional.
(** [main], up to the generator [files] it hands to the license step. *)
Definition main_files `{Posix} (fuel : nat) (sources prune : list string)
    (recurse : bool) : M unit :=
  source_ps ← PathSet_init sources;
  prune_ps ← PathSet_init prune;
  traverse fuel source_ps prune_ps recurse.

Definition initial_state : state := mkState [] [].

(** The paths a computation has yielded when it stops. *)
Definition yielded {A} (r : result A) : list string :=
  match r with
  | Ok _ st => out st
  | Raise _ st => out st
  | OutOfFuel => []
  end.

(** ** A reference implementation of the operating-system interface

    A file system without symbolic links is a tree of nodes; the process
    has a working directory and a home directory, and no environment
    variables are set, so that [os.path.expandvars] changes nothing.  The
    implementation is used to run the program on concrete inputs. *)

#[warnings="-register-all"]
Inductive node :=
  | RegularFile
  | SpecialFile
  | Directory (entries : list (string * node)).

Record machine := mkMachine {
  root : node;
  cwd : string;
  home : string;
}.

Fixpoint split_sep (s : string) : list string :=
  match s with
  | EmptyString => [""]
  | String c rest =>
      if bool_decide (c = "/"%char) then "" :: split_sep rest
      else match split_sep rest with
           | [] => [String c ""]
           | part :: parts => String c part :: parts
           end
  end.

Fixpoint join_sep (parts : list string) : string :=
  match parts with
  | [] => ""
  | part :: parts =>
      match parts with
      | [] => part
      | _ :: _ => part +:+ "/" +:+ join_sep parts
      end
  end.

(** The components of a path, without the empty and the [.] ones. *)
Definition path_parts (s : string) : list string :=
  filter (λ part, part ≠ "" ∧ part ≠ ".") (split_sep s).

Definition path_root (s : string) : string :=
  if String.prefix "///" s then "/"
  else if String.prefix "//" s then "//"
  else if String.prefix "/" s then "/"
  else "".

(** [str(pathlib.PurePosixPath(s))] *)
Definition ref_Path (s : string) : string :=
  if bool_decide (path_root s = "") && bool_decide (path_parts s = [])
  then "."
  else path_root s +:+ join_sep (path_parts s).

(** [..] components cancel the component before them. *)
Definition collapse (parts : list string) : list string :=
  rev (foldl (λ stack part,
                if bool_decide (part = "..") then tail stack
                else part :: stack)
             [] parts).

Definition absolute_parts (m : machine) (path : string) : list string :=
  collapse (path_parts (if String.prefix "/" path then path
                        else cwd m +:+ "/" +:+ path)).

Definition ref_resolve (m : machine) (path : string) : string :=
  "/" +:+ join_sep (absolute_parts m path).

(** The machine knows the home directory of the user running the
    program, and of no other user. *)
Definition ref_expanduser (m : machine) (path : string) : option string :=
  match path with
  | String "~" rest =>
      if bool_decide (rest = "") || String.prefix "/" rest
      then Some (home m +:+ rest) else None
  | _ => Some path
  end.

Fixpoint lookup_entry (name : string) (entries : list (string * node))
    : option node :=
  match entries with
  | [] => None
  | (n, child) :: entries =>
      if bool_decide (n = name) then Some child
      else lookup_entry name entries
  end.

Fixpoint find_node (parts : list string) (n : node) : option node :=
  match parts with
  | [] => Some n
  | part :: parts =>
      match n with
      | Directory entries =>
          match lookup_entry part entries with
          | Some child => find_node parts child
          | None => None
          end
      | _ => None
      end
  end.

Definition node_at (m : machine) (path : string) : option node :=
  find_node (absolute_parts m path) (root m).

Definition ref_is_dir (m : machine) (path : string) : bool :=
  match node_at m path with Some (Directory _) => true | _ => false end.

Definition ref_is_file (m : machine) (path : string) : bool :=
  match node_at m path with Some RegularFile => true | _ => false end.

Definition ref_exists (m : machine) (path : string) : bool :=
  match node_at m path with Some _ => true | None => false end.

(** [path / name] *)
Definition child_path (path name : string) : string :=
  ref_Path (if ends_with_sep path then path +:+ name
            else path +:+ "/" +:+ name).

Definition entry_names (m : machine) (path : string) : list string :=
  match node_at m path with
  | Some (Directory entries) => entries.*1
  | _ => []
  end.

Definition ref_iterdir (m : machine) (path : string) : option (list string) :=
  match node_at m path with
  | Some (Directory entries) => Some (child_path path <$> entries.*1)
  | _ => None
  end.

(** [fnmatch] with the wildcards [*] and [?]; character classes are not
    part of this reference implementation. *)
Fixpoint fnmatch (pattern : string) : string → bool :=
  match pattern with
  | EmptyString => λ name, bool_decide (name = "")
  | String c pattern' =>
      if bool_decide (c = "*"%char) then
        fix star (name : string) : bool :=
          fnmatch pattern' name ||
          match name with
          | EmptyString => false
          | String _ name' => star name'
          end
      else if bool_decide (c = "?"%char) then
        λ name, match name with
                | EmptyString => false
                | String _ name' => fnmatch pattern' name'
                end
      else
        λ name, match name with
                | EmptyString => false
                | String d name' => bool_decide (c = d) && fnmatch pattern' name'
                end
  end.

Fixpoint height (n : node) : nat :=
  match n with
  | Directory entries =>
      S ((fix go (es : list (string * node)) : nat :=
            match es with
            | [] => 0
            | (_, child) :: es => max (height child) (go es)
            end) entries)
  | _ => 0
  end.

(** The directories at and below [bases], for a [**] segment. *)
Fixpoint dirs_below (m : machine) (fuel : nat) (bases : list string)
    : list string :=
  match fuel with
  | 0 => bases
  | S fuel =>
      bases ++
      dirs_below m fuel
        (flat_map (λ base, filter (λ path, ref_is_dir m path = true)
                             (child_path base <$> entry_names m base))
                  bases)
  end.

Definition glob_segment (m : machine) (bases : list string)
    (segment : string) : list string :=
  if bool_decide (segment = "**") then
    dirs_below m (height (root m)) (filter (λ path, ref_is_dir m path = true) bases)
  else
    flat_map (λ base, child_path base <$>
                        filter (λ name, fnmatch segment name = true)
                               (entry_names m base))
             bases.

(** [Path.glob]: the empty pattern and absolute patterns are refused. *)
Definition ref_glob (m : machine) (path pattern : string)
    : option (list string) :=
  if bool_decide (pattern = "") || String.prefix "/" pattern then None
  else Some (foldl (glob_segment m) [path]
                   (filter (λ part, part ≠ "") (split_sep pattern))).

Definition ref_posix (m : machine) : Posix := {|
  expandvars := id;
  Path := ref_Path;
  is_dir := ref_is_dir m;
  is_file := ref_is_file m;
  path_exists := ref_exists m;
  iterdir := ref_iterdir m;
  glob := ref_glob m;
  expanduser := ref_expanduser m;
  path_resolve := ref_resolve m;
  iter_set := elements;
  iter_set_perm := λ _, reflexivity _;
|}.

(** The project tree of the specification's scenario, with a device node
    beside it:
<<
    /dev/null            (character device)
    /w/proj/a.py
    /w/proj/notes.txt
    /w/proj/build/x.py
    /w/proj/sub/b.py
>>
    The working directory is [/w]. *)
Definition project : machine :=
  mkMachine
    (Directory
       [("dev", Directory [("null", SpecialFile)]);
        ("w", Directory
           [("proj", Directory
               [("a.py", RegularFile);
                ("notes.txt", RegularFile);
                ("build", Directory [("x.py", RegularFile)]);
                ("sub", Directory [("b.py", RegularFile)])])])])
    "/w" "/home/user".

(** ** File types and comment symbols

    The tables are dictionaries, iterated in insertion order; they are
    embedded as association lists in that order. *)

Definition FILE_TYPE_TO_EXT_MAP : list (string * gset string) :=
  [("c", {["c"; "h"]});
   ("c++", {["cxx"; "cpp"; "hpp"; "cc"; "h"]});
   ("python", {["py"]});
   ("text", {["txt"]});
   ("shell", {["sh"; "bash"; "zsh"]});
   ("markdown", {["md"]})].

Definition COMMENT_TO_FILE_TYPE_MAP : list (string * gset string) :=
  [("#", {["shell"; "python"; "text"]});
   ("//", {["c"; "c++"]})].

Definition FILE_TYPE_TO_ENCLOSING_COMMENT_MAP
    : list (string * (string * string * string)) :=
  [("markdown", ("<--", " ", "-->"))].

(** A comment symbol is a string, or the triple of an enclosing comment. *)
Inductive comment_symbol :=
  | LineSymbol (symbol : string)
  | EnclosingSymbol (preamble middle closing : string).

#[global] Instance comment_symbol_eq_dec : EqDecision comment_symbol.
Proof. solve_decision. Defined.

(** The three [Exception]s of these functions, told apart by message.
    [EscapeInTemplate] is no exception of the program: it marks a call of
    [re.sub] whose replacement holds a backslash.  What [re.sub] does
    then depends on the escape (a character escape, a group reference,
    or [re.error]), and is left out of this embedding. *)
Inductive symbol_error :=
  | UnknownFileType (file : string)
  | UnknownCommentSymbol
  | UnknownSymbolForType (file_type : string)
  | EscapeInTemplate (template : string).

(** [s.rfind('.')] *)
Fixpoint rfind_dot (s : string) : option nat :=
  match s with
  | EmptyString => None
  | String c rest =>
      match rfind_dot rest with
      | Some i => Some (S i)
      | None => if bool_decide (c = "."%char) then Some 0 else None
      end
  end.

(** The final component of a path string. *)
Definition path_name (path : string) : string :=
  List.last (split_sep path) "".

(** [Path.suffix], as [pathlib] computes it from the final component:
    the part from the last period on, unless that period is the first or
    the last character. *)
Definition suffix (path : string) : string :=
  let name := path_name path in
  match rfind_dot name with
  | Some i =>
      if bool_decide (0 < i) && bool_decide (i < String.length name - 1)
      then String.substring i (String.length name - i) name
      else ""
  | None => ""
  end.

(** [s[1:]] *)
Definition str_tail (s : string) : string :=
  match s with
  | EmptyString => ""
  | String _ rest => rest
  end.

(** [for key, values in table.items(): if x in values: return key] *)
Fixpoint first_key_holding (x : string) (table : list (string * gset string))
    : option string :=
  match table with
  | [] => None
  | (key, values) :: table =>
      if bool_decide (x ∈ values) then Some key
      else first_key_holding x table
  end.

(** [get_file_type_from_filename] *)
Definition get_file_type_from_filename (file : string)
    : symbol_error + string :=
  let suffix := suffix file in
  if bool_decide (suffix ≠ "") then
    let suffix := str_tail suffix in
    match first_key_holding suffix FILE_TYPE_TO_EXT_MAP with
    | Some file_type => inr file_type
    | None => inl (UnknownFileType file)
    end
  else inl (UnknownFileType file).

(** [for symbol in symbols: if re.search("^" + symbol, text): return
    symbol]; without [re.MULTILINE] the anchor matches at the start of
    the text only, and the symbols of the table are literal patterns. *)
Fixpoint first_prefix (text : string) (symbols : list string) : option string :=
  match symbols with
  | [] => None
  | symbol :: symbols =>
      if String.prefix symbol text then Some symbol
      else first_prefix text symbols
  end.

(** [get_comment_symbol_from_text] *)
Definition get_comment_symbol_from_text (text : string)
    : symbol_error + string :=
  match first_prefix text COMMENT_TO_FILE_TYPE_MAP.*1 with
  | Some symbol => inr symbol
  | None => inl UnknownCommentSymbol
  end.

(** [re.sub("^" + old, new, text, 0, re.MULTILINE)] for a literal,
    non-empty [old] without newline and a template [new] without
    backslash: every occurrence of [old] at the start of the text or
    right after a newline is replaced.  [skip] counts the characters of
    a match still to be dropped, [bol] tells whether the position is at
    the beginning of a line. *)
Fixpoint sub_line_starts_from (old new : string) (skip : nat) (bol : bool)
    (text : string) : string :=
  match text with
  | EmptyString => ""
  | String c rest =>
      match skip with
      | S skip => sub_line_starts_from old new skip false rest
      | 0 =>
          if bol && String.prefix old text
          then new +:+ sub_line_starts_from old new (String.length old - 1)
                         false rest
          else String c (sub_line_starts_from old new 0
                           (bool_decide (c = "010"%char)) rest)
      end
  end.

Definition sub_line_starts (old new text : string) : string :=
  sub_line_starts_from old new 0 true text.

Definition backslash : string := String "092"%char "".

(** [re.sub("^" + old, template, text, 0, re.MULTILINE)], as far as it is
    embedded: a template without backslash is inserted as it is. *)
Definition re_sub_line_starts (old template text : string)
    : symbol_error + string :=
  if str_in backslash template then inl (EscapeInTemplate template)
  else inr (sub_line_starts old template text).

(** [change_comment_symbol]; [from_symbol] is always a string, so of the
    four cases of the source only the first two can be reached. *)
Definition change_comment_symbol (text : string) (to_symbol : comment_symbol)
    : symbol_error + string :=
  match get_comment_symbol_from_text text with
  | inl e => inl e
  | inr from_symbol =>
      if bool_decide (LineSymbol from_symbol = to_symbol) then inr text
      else
        match to_symbol with
        | LineSymbol to => re_sub_line_starts from_symbol to text
        | EnclosingSymbol _ middle _ =>
            re_sub_line_starts from_symbol middle text
        end
  end.

(** [table[key]] on the list of an enclosing-comment table. *)
Fixpoint enclosing_of (file_type : string)
    (table : list (string * (string * string * string)))
    : option (string * string * string) :=
  match table with
  | [] => None
  | (key, value) :: table =>
      if bool_decide (key = file_type) then Some value
      else enclosing_of file_type table
  end.

(** [get_comment_symbol_from_file_type] *)
Definition get_comment_symbol_from_file_type (file_type : string)
    : symbol_error + comment_symbol :=
  match enclosing_of file_type FILE_TYPE_TO_ENCLOSING_COMMENT_MAP with
  | Some (preamble, middle, closing) =>
      inr (EnclosingSymbol preamble middle closing)
  | None =>
      match first_key_holding file_type COMMENT_TO_FILE_TYPE_MAP with
      | Some symbol => inr (LineSymbol symbol)
      | None => inl (UnknownSymbolForType file_type)
      end
  end.

(** [get_comment_symbol_from_file] *)
Definition get_comment_symbol_from_file (file : string)
    : symbol_error + comment_symbol :=
  match get_file_type_from_filename file with
  | inl e => inl e
  | inr file_type => get_comment_symbol_from_file_type file_type
  end.

(** ** The entry point *)

(** The parsed arguments, but for [debug], whose output is not part of
    this embedding. *)
Record args := mkArgs {
  arg_recurse : bool;
  arg_delete : bool;
  arg_license_file : string;
  arg_list_files : bool;
  arg_sources : list string;
  arg_prune : list string;
}.

(** The order of [Path] objects: that of their lists of components, the
    components being compared as strings. *)
Fixpoint parts_leb (parts1 parts2 : list string) : bool :=
  match parts1, parts2 with
  | [], _ => true
  | _ :: _, [] => false
  | part1 :: parts1, part2 :: parts2 =>
      match String.compare part1 part2 with
      | Lt => true
      | Eq => parts_leb parts1 parts2
      | Gt => false
      end
  end.

Definition path_le (path1 path2 : string) : Prop :=
  parts_leb (split_sep path1) (split_sep path2) = true.

#[global] Instance path_le_dec : RelDecision path_le.
Proof. intros path1 path2. unfold path_le. apply _. Defined.

(** [sorted(files)] *)
Definition sorted (files : list string) : list string :=
  merge_sort path_le files.

(** [for i, file in enumerate(files, start=1): print(f"{i}{label}{file}")] *)
Definition numbered (label : string) (files : list string) : list string :=
  imap (λ i file, pretty (S i) +:+ label +:+ file) files.

(** How a run of [main] stops: at its end, with an exception of the
    traversal, or at a file that cannot be read. *)
Inductive stop :=
  | Completed
  | Stopped (e : exn)
  | ReadFailed.

Section Main.
Context `{Posix}.

(** [remove_license(license, files)]: the lines it prints, [None] when the
    license cannot be read.  It writes nothing. *)
Definition remove_license (license : string) (files : list string)
    (disk : gmap string string) : option (list string) :=
  match read_text disk license with
  | None => None
  | Some _ => Some (numbered ". Unlicensing: " files)
  end.

(** [main(args)]: the disk it leaves, the lines it prints and how it
    stops.  The generator [files] is consumed as far as the traversal
    gets: [sorted] needs all of it, the license functions take its paths
    one by one, and read the license before the first.  [None] stands for
    a traversal that exceeds the call depth [fuel]. *)
Definition main (fuel : nat) (a : args) (disk : gmap string string)
    : option (gmap string string * list string * stop) :=
  let files :=
    main_files fuel (arg_sources a) (arg_prune a) (arg_recurse a)
               initial_state in
  if arg_list_files a then
    match files with
    | Ok _ st => Some (disk, numbered ". " (sorted (out st)), Completed)
    | Raise e _ => Some (disk, [], Stopped e)
    | OutOfFuel => None
    end
  else
    let license := Path (arg_license_file a) in
    if arg_delete a then
      match remove_license license (yielded files) disk with
      | None => Some (disk, [], ReadFailed)
      | Some printed =>
          match files with
          | Ok _ _ => Some (disk, printed, Completed)
          | Raise e _ => Some (disk, printed, Stopped e)
          | OutOfFuel => None
          end
      end
    else
      match read_text disk license with
      | None => Some (disk, [], ReadFailed)
      | Some _ =>
          match files with
          | OutOfFuel => None
          | _ =>
              let '(disk', finished) :=
                add_license license (yielded files) disk in
              if finished then
                match files with
                | Raise e _ => Some (disk', [], Stopped e)
                | _ => Some (disk', [], Completed)
                end
              else Some (disk', [], ReadFailed)
          end
      end.

End Main.

(** ** Vocabulary of the statements *)

(** [frame modified st st']: from [st] to [st'] objects were only added to
    the heap, and of those of [st] only the ones in [modified] changed. *)
Definition frame (modified : list nat) (st st' : state) : Prop :=
  length (heap st) ≤ length (heap st') ∧
  ∀ l, l < length (heap st) → l ∉ modified → heap st' !! l = heap st !! l.

(** The result [r] of a generator run from [st] is what the walk [w] says:
    the same paths were yielded, it ended the same way, the prune object
    holds the value [w] ends with, and no object outside [modified]
    changed. *)
Definition ends_like (modified : list nat) (st : state) (prune_ps : nat)
    (r : result unit) (w : walk) : Prop :=
  match w with
  | Walked ys prune_v =>
      ∃ st', r = Ok tt st' ∧ out st' = out st ++ ys ∧
             heap st' !! prune_ps = Some prune_v ∧ frame modified st st'
  | Failed ys e =>
      ∃ st', r = Raise e st' ∧ out st' = out st ++ ys ∧
             frame modified st st'
  | Starved => r = OutOfFuel
  end.

Definition simulates (modified : list nat) (m : M unit) (st : state)
    (prune_ps : nat) (w : walk) : Prop :=
  ends_like modified st prune_ps (m st) w.

(** Inclusion of path sets, set by set. *)
Definition included (ps1 ps2 : PathSet) : Prop :=
  dirs ps1 ⊆ dirs ps2 ∧ files ps1 ⊆ files ps2 ∧ globs ps1 ⊆ globs ps2.

(** The paths a walk yielded. *)
Definition yields (w : walk) : list string :=
  match w with
  | Walked ys _ => ys
  | Failed ys _ => ys
  | Starved => []
  end.

(** The three kinds of specifier, and the set each kind is put in. *)
Inductive kind := AsGlob | AsDir | AsFile.

Definition placed `{Posix} (k : kind) (source : string) (ps : PathSet)
    : PathSet :=
  match k with
  | AsGlob => mkPathSet (dirs ps) (files ps) (globs ps ∪ {[source]})
  | AsDir => mkPathSet (dirs ps ∪ {[Path source]}) (files ps) (globs ps)
  | AsFile => mkPathSet (dirs ps) (files ps ∪ {[Path source]}) (globs ps)
  end.

(** The classification rule in the words of the specification: a path
    that "does not exist" and has no period or ends in a separator is a
    directory. *)
Definition claimed_kind `{Posix} (source : string) : kind :=
  if str_in "*" source then AsGlob
  else if is_dir (Path source) then AsDir
  else if negb (path_exists (Path source))
          && (negb (str_in "." source) || ends_with_sep source) then AsDir
  else AsFile.

(** ** Sample inputs *)

(** One object pruned against itself. *)
Definition aliased : state :=
  mkState [mkPathSet {["/a"]} {["/a/f.py"]} {["*.py"]}] [].

(** A source set and a prune set, as two objects. *)
Definition sample_source : PathSet :=
  mkPathSet {["/a/b"; "/c"]} {["/a/bc/f"; "/c/g.py"; "/d/h.py"]}
            {["*.py"; "*.md"]}.

Definition sample_prune : PathSet :=
  mkPathSet {["/a/b"]} {["/d/h.py"]} {["*.md"]}.

Definition two_sets : state := mkState [sample_source; sample_prune] [].

#[global] Instance project_posix : Posix | 100 := ref_posix project.

(** A heap holding one empty set. *)
Definition one_empty : state := mkState [empty_PathSet] [].




(** [valid p]: the path exists and is a regular file or a directory. *)
Definition valid `{Posix} (p : string) : Prop :=
  path_exists p = true ∧ (is_dir p = true ∨ is_file p = true).



(** A source set naming the project directory, and an empty prune set. *)
Definition project_source : PathSet := mkPathSet {["proj"]} ∅ ∅.

Definition project_sets : state :=
  mkState [project_source; empty_PathSet] [].

(** The text of two files of the sample machine. *)
Definition sample_disk : gmap string string :=
  {[ "/w/LICENSE" := "# MIT licence;"; "/w/proj/a.py" := "print(1)" ]}.

(** What an observer sees of a generator: how it ended and what it
    yielded. *)
Inductive ending := Finished | Raised (e : exn) | Exhausted.

Definition ending_of {A} (r : result A) : ending :=
  match r with
  | Ok _ _ => Finished
  | Raise e _ => Raised e
  | OutOfFuel => Exhausted
  end.

Definition behaviour {A} (r : result A) : ending * list string :=
  (ending_of r, yielded r).

Definition walk_behaviour (before : list string) (w : walk)
    : ending * list string :=
  match w with
  | Walked ys _ => (Finished, before ++ ys)
  | Failed ys e => (Raised e, before ++ ys)
  | Starved => (Exhausted, [])
  end.

(** The classification [add] applies to an expanded specifier. *)
Definition code_kind `{Posix} (source : string) : kind :=
  if str_in "*" source then AsGlob
  else if is_dir (Path source)
          || (negb (is_file (Path source))
              && (negb (str_in "." source) || ends_with_sep source))
  then AsDir
  else AsFile.

(** [entered x ps]: the specifier [x] sits in [ps], in the set that [add]
    puts it in. *)
Definition entered `{Posix} (x : string) (ps : PathSet) : Prop :=
  match code_kind (expandvars x) with
  | AsGlob => expandvars x ∈ globs ps
  | AsDir => Path (expandvars x) ∈ dirs ps
  | AsFile => Path (expandvars x) ∈ files ps
  end.

(** A directory is kept by a prune set when no prune directory occurs in
    its string; a file, when moreover it is not one of the prune files. *)
Definition keeps_dir (prune_v : PathSet) (path : string) : Prop :=
  ∀ x, x ∈ dirs prune_v → ¬ substring_of x path.

Definition keeps_file (prune_v : PathSet) (path : string) : Prop :=
  keeps_dir prune_v path ∧ path ∉ files prune_v.

(** The prune set a walk ends with includes the one it started from. *)
Definition grows (pv : PathSet) (w : walk) : Prop :=
  match w with
  | Walked _ pv' => included pv pv'
  | _ => True
  end.

(** A working set and a prune set holding one glob, as two objects. *)
Definition walk_sets : state :=
  mkState [mkPathSet {["/w/proj"]} ∅ {["*"]}; mkPathSet ∅ ∅ {["*.txt"]}] [].

(** ** Further sample inputs *)

(** The working set built for the project directory under the universal
    glob. *)
Definition project_child : PathSet :=
  mkPathSet {["/w/proj/build"; "/w/proj/sub"]}
            {["/w/proj/a.py"; "/w/proj/notes.txt"]} {["*"]}.

(** A recursive call that does nothing, to look at one visit alone. *)
Definition no_walk : nat → M unit := λ _, mret tt.

(** The state a computation stops in. *)
Definition final_state {A} (r : result A) : state :=
  match r with
  | Ok _ st => st
  | Raise _ st => st
  | OutOfFuel => initial_state
  end.

(** The project as source set and its build directory as prune set. *)
Definition pruned_sets : state :=
  mkState [mkPathSet {["proj"]} ∅ ∅; mkPathSet {["proj/build"]} ∅ ∅] [].

(** The states the sample traversals end in. *)
Definition pruned_done : state :=
  final_state (traverse 5 0 1 true pruned_sets).

Definition flat_done : state :=
  final_state (traverse 5 0 1 false project_sets).

(** The sample disk after a complete run, and after a run that stops at
    a file without content. *)
Definition licensed_disk : gmap string string :=
  (add_license "LICENSE" ["/w/proj/a.py"; "/w/LICENSE"; "/w/proj/a.py"]
               sample_disk).1.

Definition stopped_disk : gmap string string :=
  (add_license "LICENSE" ["/w/proj/a.py"; "/w/proj/gone.py"; "/w/LICENSE"]
               sample_disk).1.

(** Runs of the program on the sample machine: licensing one file,
    licensing a project next to a source that does not exist, and listing
    a project together with one of its directories. *)
Definition add_args : args :=
  mkArgs true false "LICENSE" false ["proj/a.py"] ["proj/build"].



Definition added_disk : gmap string string :=
  {[ "/w/LICENSE" := "# MIT licence;";
     "/w/proj/a.py" := "# MIT licence;print(1)" ]}.


(** * Properties *)

(** ** Strings *)

Lemma app_String c s t : String c s +:+ t = String c (s +:+ t).
Proof. reflexivity. Qed.
Lemma app_empty t : "" +:+ t = t.
Proof. reflexivity. Qed.

Lemma prefix_spec needle hay :
  String.prefix needle hay = true ↔ ∃ post, hay = needle +:+ post.
Proof.
  revert hay. induction needle as [|c needle IH]; intros hay.
  - split; [intros _; by exists hay | by destruct hay].
  - destruct hay as [|d hay]; simpl.
    + split; [done | intros [post Hpost]; discriminate].
    + setoid_rewrite app_String.
      destruct (ascii_dec c d) as [->|Hne].
      * rewrite IH. split; intros [post Hpost]; exists post; congruence.
      * split; [done | intros [post Hpost]; congruence].
Qed.
Lemma str_in_spec needle hay :
  str_in needle hay = true ↔ substring_of needle hay.
Proof.
  unfold substring_of. induction hay as [|c hay IH]; cbn [str_in].
  - rewrite orb_false_r, prefix_spec. split.
    + intros [post Hpost]. by exists "", post.
    + intros ([|??] & post & Hpost); [by exists post | discriminate].
  - rewrite orb_true_iff, prefix_spec, IH. split.
    + intros [[post Hpost] | (pre & post & ->)].
      * by exists "", post.
      * by exists (String c pre), post.
    + intros ([|d pre] & post & Hpost).
      * left. by exists post.
      * right. exists pre, post. rewrite app_String in Hpost. congruence.
Qed.

Lemma str_in_refl s : str_in s s = true.
Proof.
  apply str_in_spec. exists "", "". rewrite app_empty.
  induction s as [|c s IH]; [done|]. rewrite app_String. congruence.
Qed.

(** ** The monad *)

Lemma bind_Ok {A B} (m : M A) (f : A → M B) st a st' :
  m st = Ok a st' → (m ≫= f) st = f a st'.
Proof. unfold mbind, M_bind. by intros ->. Qed.

Lemma bind_Raise {A B} (m : M A) (f : A → M B) st e st' :
  m st = Raise e st' → (m ≫= f) st = Raise e st'.
Proof. unfold mbind, M_bind. by intros ->. Qed.

Lemma bind_OutOfFuel {A B} (m : M A) (f : A → M B) st :
  m st = OutOfFuel → (m ≫= f) st = OutOfFuel.
Proof. unfold mbind, M_bind. by intros ->. Qed.

Lemma load_Ok l st ps : heap st !! l = Some ps → load l st = Ok ps st.
Proof. unfold load. by intros ->. Qed.

Lemma state_eta st : mkState (heap st) (out st) = st.
Proof. by destruct st. Qed.

Lemma yield_from_run xs st :
  yield_from xs st = Ok tt (mkState (heap st) (out st ++ xs)).
Proof.
  revert st. induction xs as [|x xs IH]; intros st; simpl.
  - by rewrite app_nil_r, state_eta.
  - unfold yield_from in *. simpl.
    erewrite bind_Ok by reflexivity. rewrite IH. simpl.
    by rewrite <- app_assoc.
Qed.

(** ** Iteration over a set, resolution of paths *)

Section Iteration.
Context `{Posix}.

Lemma elem_of_iter_set (members : gset string) x :
  x ∈ iter_set members ↔ x ∈ members.
Proof. by rewrite iter_set_perm, elem_of_elements. Qed.

Lemma NoDup_iter_set (members : gset string) : NoDup (iter_set members).
Proof. rewrite iter_set_perm. apply NoDup_elements. Qed.

Lemma iter_set_empty : iter_set ∅ = [].
Proof.
  apply Permutation_nil_r. by rewrite iter_set_perm, elements_empty.
Qed.

Lemma resolve_path_Some path resolved :
  resolve_path path = Some resolved ↔
  ∃ user, expanduser path = Some user ∧ resolved = path_resolve user.
Proof.
  unfold resolve_path. destruct (expanduser path) as [user|]; simpl.
  - split; [intros [= <-]; by exists user|by intros (? & [= <-] & ->)].
  - split; [done|by intros (? & ? & _)].
Qed.

Lemma resolve_paths_Some paths resolved :
  resolve_paths paths = Some resolved →
  (∀ path, path ∈ paths → is_Some (resolve_path path)) ∧
  (∀ r, r ∈ resolved ↔ ∃ path, path ∈ paths ∧ resolve_path path = Some r).
Proof.
  unfold resolve_paths.
  destruct (mapM resolve_path (iter_set paths)) as [rs|] eqn:Hrs; [|done].
  intros [= <-]. apply mapM_Some in Hrs. split.
  - intros path Hpath%elem_of_iter_set.
    apply list_elem_of_lookup in Hpath as (i & Hi).
    destruct (Forall2_lookup_l _ _ _ _ _ Hrs Hi) as (r & _ & Hr). by exists r.
  - intros r. rewrite elem_of_list_to_set. split.
    + intros (i & Hi)%list_elem_of_lookup.
      destruct (Forall2_lookup_r _ _ _ _ _ Hrs Hi) as (path & Hp & Hr).
      exists path. split; [|done].
      apply elem_of_iter_set. by eapply list_elem_of_lookup_2.
    + intros (path & Hpath%elem_of_iter_set & Hr).
      apply list_elem_of_lookup in Hpath as (i & Hi).
      destruct (Forall2_lookup_l _ _ _ _ _ Hrs Hi) as (r' & Hr' & Hr'').
      rewrite Hr in Hr''. injection Hr'' as <-.
      by eapply list_elem_of_lookup_2.
Qed.


Lemma resolve_paths_empty : resolve_paths ∅ = Some ∅.
Proof. unfold resolve_paths. by rewrite iter_set_empty. Qed.

End Iteration.

(** ** The methods act on the heap as their functional readings say *)

Section Runs.
Context `{Posix}.

Lemma add_one_run self source st ps :
  heap st !! self = Some ps →
  add_one self source st =
    Ok tt (mkState (<[self := add_one_pure ps source]> (heap st)) (out st)).
Proof.
  intros Hself. unfold add_one, add_one_pure.
  repeat case_match; erewrite bind_Ok by (by apply load_Ok); done.
Qed.

Lemma add_run self sources st ps :
  heap st !! self = Some ps →
  add self sources st =
    Ok tt (mkState (<[self := add_pure ps sources]> (heap st)) (out st)).
Proof.
  unfold add, add_pure.
  revert st ps. induction sources as [|source sources IH]; intros st ps Hself.
  - simpl. unfold mret, M_ret. by rewrite list_insert_id, state_eta.
  - simpl. erewrite bind_Ok by (by apply add_one_run).
    erewrite IH; simpl.
    + by rewrite list_insert_insert_eq.
    + apply list_lookup_insert_eq. by eapply lookup_lt_Some.
Qed.

Lemma prune_run self prune_ps st self_v prune_v :
  heap st !! self = Some self_v →
  heap st !! prune_ps = Some prune_v →
  prune self prune_ps st =
    Ok tt (mkState (<[self := prune_pure self_v prune_v]> (heap st)) (out st)).
Proof.
  intros Hself Hprune. unfold prune, prune_pure.
  assert (self < length (heap st)) as Hlt by by eapply lookup_lt_Some.
  erewrite bind_Ok by (by apply load_Ok).
  erewrite bind_Ok by (by apply load_Ok).
  destruct (prune_by_dirs self_v prune_v) as [pd pf]. simpl.
  erewrite bind_Ok by (by apply load_Ok).
  erewrite bind_Ok by reflexivity.
  erewrite bind_Ok
    by (apply load_Ok; simpl; by apply list_lookup_insert_eq).
  erewrite bind_Ok by reflexivity.
  erewrite bind_Ok
    by (apply load_Ok; simpl; apply list_lookup_insert_eq;
        by rewrite !length_insert).
  unfold store. simpl. by rewrite !list_insert_insert_eq.
Qed.

End Runs.
(** ** The traversal acts on the heap as its functional reading says *)

Lemma frame_refl modified st : frame modified st st.
Proof. by split. Qed.

Lemma frame_trans m1 m2 m3 st1 st2 st3 :
  frame m1 st1 st2 → frame m2 st2 st3 →
  (∀ l, l < length (heap st1) → l ∉ m3 → (l ∉ m1) ∧ (l ∉ m2)) →
  frame m3 st1 st3.
Proof.
  intros [Hlen1 H1] [Hlen2 H2] Hm. split; [lia|].
  intros l Hl Hnot. destruct (Hm l Hl Hnot) as [Hn1 Hn2].
  rewrite H2 by (done || lia). by apply H1.
Qed.

Lemma frame_weaken m1 m2 st st' :
  frame m1 st st' → (∀ l, l ∈ m1 → l ∈ m2) → frame m2 st st'.
Proof. intros [Hlen H1] Hm. split; [done|]. intros l Hl Hnot. apply H1; auto. Qed.

Lemma frame_insert st l ps :
  frame [l] st (mkState (<[l := ps]> (heap st)) (out st)).
Proof.
  split; simpl; [by rewrite length_insert|].
  intros l' _ Hne. apply list_lookup_insert_ne. set_solver.
Qed.

Lemma frame_snoc st ps out' :
  frame [] st (mkState (heap st ++ [ps]) out').
Proof.
  split; simpl; [rewrite length_app; lia|].
  intros l Hl _. by apply lookup_app_l.
Qed.

Lemma lookup_snoc_first {A} (l : list A) x y :
  ((l ++ [x]) ++ [y]) !! length l = Some x.
Proof. rewrite <- app_assoc. by rewrite lookup_app_r, Nat.sub_diag. Qed.

Lemma lookup_snoc_second {A} (l : list A) x y :
  ((l ++ [x]) ++ [y]) !! S (length l) = Some y.
Proof.
  rewrite lookup_app_r; rewrite length_app; simpl; [|lia].
  by replace (S (length l) - (length l + 1)) with 0 by lia.
Qed.

Ltac lookup_tac :=
  simpl;
  repeat first
    [ rewrite list_lookup_insert_ne by lia
    | rewrite list_lookup_insert_eq
        by (rewrite ?length_insert, ?length_app; simpl; lia)
    | rewrite lookup_snoc_first
    | rewrite lookup_snoc_second
    | rewrite lookup_app_l by (rewrite ?length_insert, ?length_app; simpl; lia)
    | rewrite lookup_app_r by (rewrite ?length_insert, ?length_app; simpl; lia) ];
  rewrite ?Nat.sub_diag; 
  try done.

Section Simulation.
Context `{Posix}.

Lemma validate_paths_run paths st :
  validate_paths paths st =
    match validate_paths_pure paths with
    | None => Ok tt st
    | Some e => Raise e st
    end.
Proof.
  unfold validate_paths. induction paths as [|path paths IH]; simpl; [done|].
  unfold mbind, M_bind.
  destruct (negb (path_exists path)); [done|].
  destruct (negb (is_dir path) && negb (is_file path)); [done|].
  unfold mret, M_ret. apply IH.
Qed.

Lemma validate_run self st ps :
  heap st !! self = Some ps →
  validate self st =
    match validate_pure ps with
    | None => Ok tt st
    | Some e => Raise e st
    end.
Proof.
  intros Hself. unfold validate, validate_pure.
  erewrite bind_Ok by (by apply load_Ok).
  unfold mbind at 1, M_bind. rewrite validate_paths_run.
  destruct (validate_paths_pure (iter_set (dirs ps))); [done|].
  erewrite bind_Ok by (by apply load_Ok).
  apply validate_paths_run.
Qed.

Lemma do_resolve_paths_run paths st :
  do_resolve_paths paths st =
    match resolve_paths paths with
    | Some resolved => Ok resolved st
    | None => Raise HomeError st
    end.
Proof. unfold do_resolve_paths. by destruct (resolve_paths paths). Qed.

Lemma resolve_run self st ps :
  heap st !! self = Some ps →
  resolve self st =
    match resolve_paths (dirs ps) with
    | None => Raise HomeError st
    | Some resolved_dirs =>
        match resolve_paths (files ps) with
        | None =>
            Raise HomeError
              (mkState (<[self := mkPathSet resolved_dirs (files ps) (globs ps)]>
                          (heap st)) (out st))
        | Some resolved_files =>
            Ok tt
              (mkState (<[self := mkPathSet resolved_dirs resolved_files
                                             (globs ps)]> (heap st)) (out st))
        end
    end.
Proof.
  intros Hself. unfold resolve.
  assert (self < length (heap st)) as Hlt by by eapply lookup_lt_Some.
  erewrite bind_Ok by (by apply load_Ok).
  unfold mbind at 1, M_bind at 1. rewrite do_resolve_paths_run.
  destruct (resolve_paths (dirs ps)) as [resolved_dirs|]; [|done].
  erewrite bind_Ok by reflexivity.
  erewrite bind_Ok by (apply load_Ok; simpl; by apply list_lookup_insert_eq).
  unfold mbind at 1, M_bind at 1. rewrite do_resolve_paths_run. simpl.
  destruct (resolve_paths (files ps)) as [resolved_files|]; [|done].
  unfold store. simpl. by rewrite list_insert_insert_eq.
Qed.

Lemma resolve_Ok self st ps resolved :
  heap st !! self = Some ps →
  resolve_pure ps = Some resolved →
  resolve self st =
    Ok tt (mkState (<[self := resolved]> (heap st)) (out st)).
Proof.
  intros Hself Hpure. rewrite (resolve_run _ _ _ Hself).
  unfold resolve_pure in Hpure.
  destruct (resolve_paths (dirs ps)); [|done].
  destruct (resolve_paths (files ps)); [|done].
  simpl in Hpure. by injection Hpure as <-.
Qed.

Lemma resolve_Raise self st ps :
  heap st !! self = Some ps →
  resolve_pure ps = None →
  ∃ st', resolve self st = Raise HomeError st' ∧ out st' = out st ∧
         frame [self] st st'.
Proof.
  intros Hself Hpure. rewrite (resolve_run _ _ _ Hself).
  unfold resolve_pure in Hpure.
  destruct (resolve_paths (dirs ps)).
  - destruct (resolve_paths (files ps)); [done|].
    eexists. split_and!; [done..|apply frame_insert].
  - eexists. split_and!; [done..|apply frame_refl].
Qed.

Lemma glob_union_run path patterns paths st :
  glob_union path patterns paths st =
    match glob_union_pure path patterns paths with
    | inr found => Ok found st
    | inl e => Raise e st
    end.
Proof.
  revert paths. induction patterns as [|pattern patterns IH]; intros paths;
    simpl; [done|].
  unfold mbind, M_bind, do_glob.
  destruct (glob path pattern) as [matches|]; [|done].
  unfold mret, M_ret. apply IH.
Qed.

Lemma resolve_globs_run path patterns st :
  resolve_globs path patterns st =
    match resolve_globs_pure path patterns with
    | inr found => Ok found st
    | inl e => Raise e st
    end.
Proof.
  unfold resolve_globs, resolve_globs_pure, mbind, M_bind.
  rewrite glob_union_run.
  destruct (glob_union_pure path (iter_set patterns) ∅); [done|].
  rewrite do_resolve_paths_run. by destruct (resolve_paths _).
Qed.

Lemma PathSet_init_run sources st :
  PathSet_init sources st =
    Ok (length (heap st))
       (mkState (heap st ++ [add_pure empty_PathSet sources]) (out st)).
Proof.
  unfold PathSet_init.
  erewrite bind_Ok by reflexivity.
  erewrite bind_Ok.
  2:{ apply add_run with (ps := empty_PathSet). simpl.
      by rewrite lookup_app_r, Nat.sub_diag. }
  unfold mret, M_ret. simpl. f_equal. f_equal.
  rewrite insert_app_r_alt, Nat.sub_diag by done. done.
Qed.

Lemma deepcopy_run l st ps :
  heap st !! l = Some ps →
  deepcopy l st = Ok (length (heap st)) (mkState (heap st ++ [ps]) (out st)).
Proof. intros Hl. unfold deepcopy. by erewrite bind_Ok by (by apply load_Ok). Qed.

Lemma fill_pwd_run self st ps :
  heap st !! self = Some ps →
  fill_pwd self st =
    Ok tt (mkState (<[self := fill_pwd_pure ps]> (heap st)) (out st)).
Proof.
  intros Hself. unfold fill_pwd, fill_pwd_pure.
  erewrite bind_Ok by (by apply load_Ok).
  case_match; [by apply add_run|].
  unfold mret, M_ret. by rewrite list_insert_id, state_eta.
Qed.

Lemma fill_all_run self st ps :
  heap st !! self = Some ps →
  fill_all self st =
    Ok tt (mkState (<[self := fill_all_pure ps]> (heap st)) (out st)).
Proof.
  intros Hself. unfold fill_all, fill_all_pure.
  erewrite bind_Ok by (by apply load_Ok).
  case_match; [by apply add_run|].
  unfold mret, M_ret. by rewrite list_insert_id, state_eta.
Qed.


Lemma ends_like_later modified modified' st st1 p r ys w :
  frame modified st st1 →
  out st1 = out st ++ ys →
  (∀ l, l < length (heap st) → l ∉ modified → l ∉ modified') →
  ends_like modified' st1 p r w →
  ends_like modified st p r (after_yield ys w).
Proof.
  intros Hframe Hout Hm Hsim.
  assert (∀ st', frame modified' st1 st' → frame modified st st') as Hfr.
  { intros st' Hframe'. eapply frame_trans; [done..|]. auto. }
  destruct w as [zs pv|zs e|]; simpl in *.
  - destruct Hsim as (st' & Hrun & Hout' & Hp & Hframe').
    exists st'. split_and!; [done| |done|auto].
    by rewrite Hout', Hout, app_assoc.
  - destruct Hsim as (st' & Hrun & Hout' & Hframe').
    exists st'. split_and!; [done| |auto].
    by rewrite Hout', Hout, app_assoc.
  - done.
Qed.

Lemma after_yield_nil w : after_yield [] w = w.
Proof. by destruct w. Qed.

Lemma after_yield_app ys zs w :
  after_yield ys (after_yield zs w) = after_yield (ys ++ zs) w.
Proof. destruct w; simpl; by rewrite ?app_assoc. Qed.

Lemma for_each_sim (body : string → M unit) (V : string → PathSet → walk)
    s sv p :
  s ≠ p →
  (∀ d st pv, heap st !! s = Some sv → heap st !! p = Some pv →
              simulates [p] (body d) st p (V d pv)) →
  ∀ ds st pv, heap st !! s = Some sv → heap st !! p = Some pv →
              simulates [p] (for_each ds body) st p (walk_dirs V ds pv).
Proof.
  intros Hne Hbody ds. induction ds as [|d ds IH]; intros st pv Hs Hp;
    unfold simulates; cbn [for_each walk_dirs].
  - exists st. split_and!; [done|by rewrite app_nil_r|done|apply frame_refl].
  - specialize (Hbody d st pv Hs Hp).
    unfold simulates in Hbody.
    destruct (V d pv) as [ys pv1|ys e|]; cbn [ends_like] in *.
    + destruct Hbody as (st1 & Hrun & Hout & Hp1 & Hframe).
      assert (heap st1 !! s = Some sv) as Hs1.
      { destruct Hframe as [_ Hkeep]. rewrite Hkeep; [done| |].
        - by eapply lookup_lt_Some.
        - by intros ->%list_elem_of_singleton. }
      specialize (IH st1 pv1 Hs1 Hp1).
      unfold simulates. erewrite bind_Ok by done.
      by eapply ends_like_later.
    + destruct Hbody as (st1 & Hrun & Hout & Hframe).
      exists st1. by erewrite bind_Raise by done.
    + by erewrite bind_OutOfFuel by done.
Qed.

Lemma resolve_globs_Ok path patterns found st :
  resolve_globs_pure path patterns = inr found →
  resolve_globs path patterns st = Ok found st.
Proof. intros Hpure. by rewrite resolve_globs_run, Hpure. Qed.

Lemma resolve_globs_Raise path patterns e st :
  resolve_globs_pure path patterns = inl e →
  resolve_globs path patterns st = Raise e st.
Proof. intros Hpure. by rewrite resolve_globs_run, Hpure. Qed.

Lemma visit_sim (below : nat → M unit) (B : PathSet → PathSet → walk) s sv p :
  s ≠ p →
  (∀ c st cv pv, c ≠ p → heap st !! c = Some cv → heap st !! p = Some pv →
                 simulates [c; p] (below c) st p (B cv pv)) →
  ∀ d st pv, heap st !! s = Some sv → heap st !! p = Some pv →
             simulates [p] (visit below s p d) st p (visit_dir B sv d pv).
Proof.
  intros Hne Hbelow d st pv Hs Hp.
  assert (s < length (heap st)) as Hslt by by eapply lookup_lt_Some.
  assert (p < length (heap st)) as Hplt by by eapply lookup_lt_Some.
  unfold simulates, visit, visit_dir, child_set, prune_grow.
  erewrite bind_Ok by (by apply load_Ok).
  erewrite bind_Ok by apply PathSet_init_run.
  unfold do_iterdir.
  destruct (iterdir d) as [children|]; cycle 1.
  { eexists. split_and!; [by erewrite bind_Raise by done|simpl; by rewrite app_nil_r|].
    eapply frame_weaken; [apply frame_snoc|]. by intros l ?%elem_of_nil. }
  erewrite bind_Ok by done.
  erewrite bind_Ok by (apply add_run; lookup_tac).
  erewrite bind_Ok by (apply load_Ok; lookup_tac).
  destruct (resolve_globs_pure d (globs sv)) as [e|matches] eqn:Hsrc.
  { eexists. split_and!;
      [by erewrite bind_Raise by (by apply resolve_globs_Raise)
      |simpl; by rewrite app_nil_r|].
    split; simpl; [rewrite length_insert, length_app; lia|].
    intros l Hl _. by lookup_tac. }
  erewrite bind_Ok by (by apply resolve_globs_Ok).
  erewrite bind_Ok by (apply add_run; lookup_tac).
  erewrite bind_Ok by (apply load_Ok; lookup_tac).
  destruct (resolve_globs_pure d (globs pv)) as [e|pmatches] eqn:Hprn.
  { eexists. split_and!;
      [by erewrite bind_Raise by (by apply resolve_globs_Raise)
      |simpl; by rewrite app_nil_r|].
    split; simpl; [rewrite !length_insert, length_app; lia|].
    intros l Hl _. by lookup_tac. }
  erewrite bind_Ok by (by apply resolve_globs_Ok).
  erewrite bind_Ok by (apply add_run; lookup_tac).
  rewrite <- (after_yield_nil (B _ _)).
  eapply ends_like_later; cycle 3.
  - apply Hbelow; [lia|lookup_tac..].
  - split; simpl; [rewrite !length_insert, length_app; lia|].
    intros l Hl Hnp. apply not_elem_of_cons in Hnp as [? _]. by lookup_tac.
  - simpl. by rewrite app_nil_r.
  - intros l Hl Hnp. apply not_elem_of_cons in Hnp as [? _].
    rewrite !not_elem_of_cons. split_and!; [lia|done|apply not_elem_of_nil].
Qed.

Lemma _traverse_sim fuel recurse :
  ∀ depth s p st sv pv,
    s ≠ p → heap st !! s = Some sv → heap st !! p = Some pv →
    simulates [s; p] (_traverse fuel s p recurse depth) st p
              (_traverse_pure fuel sv pv recurse depth).
Proof.
  induction fuel as [|fuel IH]; intros depth s p st sv pv Hne Hs Hp; [done|].
  assert (s < length (heap st)) as Hslt by by eapply lookup_lt_Some.
  assert (p < length (heap st)) as Hplt by by eapply lookup_lt_Some.
  unfold simulates. cbn [_traverse _traverse_pure].
  erewrite bind_Ok by (by apply prune_run).
  erewrite bind_Ok by (apply load_Ok; lookup_tac).
  erewrite bind_Ok by apply yield_from_run.
  eapply ends_like_later with (modified' := [p])
    (st1 := mkState (<[s := prune_pure sv pv]> (heap st))
                    (out st ++ iter_set (files (prune_pure sv pv)))).
  - split; simpl; [by rewrite length_insert|].
    intros l Hl Hnot. apply not_elem_of_cons in Hnot as [? _]. by lookup_tac.
  - done.
  - intros l Hl Hnot. apply not_elem_of_cons in Hnot as [_ ?]. done.
  - destruct (negb recurse && bool_decide (0 < depth)).
    + eexists. split_and!; [done|by rewrite app_nil_r|by lookup_tac|].
      apply frame_refl.
    + erewrite bind_Ok by (apply load_Ok; lookup_tac).
      apply (for_each_sim _ _ s (prune_pure sv pv) p Hne); [|by lookup_tac..].
      intros d st' pv' Hs' Hp'.
      apply visit_sim; [done| |done..].
      intros c st'' cv pv'' Hc Hcv Hpv. by apply IH.
Qed.

(** What [traverse] does before it hands over to [_traverse]: it works on
    two new objects, copies of its inputs, and either stops with nothing
    yielded or starts [_traverse] on the prepared copy of the source set
    and the resolved copy of the prune set. *)
Lemma traverse_prologue fuel self prune_ps recurse st sv pv :
  heap st !! self = Some sv →
  heap st !! prune_ps = Some pv →
  match prepare sv with
  | None =>
      ∃ st', traverse fuel self prune_ps recurse st = Raise HomeError st' ∧
             out st' = out st ∧ frame [] st st'
  | Some source_v =>
      match validate_pure source_v with
      | Some e =>
          ∃ st', traverse fuel self prune_ps recurse st = Raise e st' ∧
                 out st' = out st ∧ frame [] st st'
      | None =>
          match resolve_pure pv with
          | None =>
              ∃ st', traverse fuel self prune_ps recurse st
                       = Raise HomeError st' ∧
                     out st' = out st ∧ frame [] st st'
          | Some prune_v =>
              traverse fuel self prune_ps recurse st =
                _traverse fuel (length (heap st)) (S (length (heap st)))
                          recurse 0
                          (mkState (heap st ++ [source_v; prune_v]) (out st))
          end
      end
  end.
Proof.
  intros Hs Hp.
  assert (self < length (heap st)) as Hslt by by eapply lookup_lt_Some.
  assert (prune_ps < length (heap st)) as Hplt by by eapply lookup_lt_Some.
  assert (∀ st', length (heap st) + 2 ≤ length (heap st') →
                 (∀ l, l < length (heap st) → heap st' !! l = heap st !! l) →
                 frame [] st st') as Hframe.
  { intros st' Hlen Hkeep. split; [lia|]. intros l Hl _. by apply Hkeep. }
  unfold traverse, prepare.
  erewrite bind_Ok by (by apply deepcopy_run).
  erewrite bind_Ok by (apply deepcopy_run; lookup_tac).
  cbn [heap out]. rewrite length_app. cbn [length]. rewrite Nat.add_1_r.
  erewrite bind_Ok by (apply fill_pwd_run; lookup_tac).
  erewrite bind_Ok by (apply fill_all_run; lookup_tac).
  set (filled := fill_all_pure (fill_pwd_pure sv)).
  destruct (resolve_pure filled) as [source_v|] eqn:Hsource.
  2:{ lazymatch goal with
      | |- ∃ _, (resolve ?l ≫= _) ?stx = _ ∧ _ =>
          destruct (resolve_Raise l stx filled) as (st' & Hrun & Hout & Hfr);
            [by lookup_tac|done|]
      end.
      exists st'. split_and!; [by erewrite bind_Raise by exact Hrun|done|].
      destruct Hfr as [Hlen Hkeep]. simpl in Hlen.
      rewrite !length_insert, !length_app in Hlen. simpl in Hlen.
      apply Hframe; [lia|]. intros l Hl.
      rewrite Hkeep; simpl.
      - by lookup_tac.
      - rewrite !length_insert, !length_app. simpl. lia.
      - apply not_elem_of_cons. split; [lia|apply not_elem_of_nil]. }
  erewrite bind_Ok by (eapply resolve_Ok; [|exact Hsource]; lookup_tac).
  destruct (validate_pure source_v) as [e|] eqn:Hvalid.
  { eexists. split_and!.
    - erewrite bind_Raise; [done|].
      erewrite validate_run by lookup_tac. by rewrite Hvalid.
    - done.
    - apply Hframe; simpl; [rewrite !length_insert, !length_app; simpl; lia|].
      intros l Hl. by lookup_tac. }
  erewrite bind_Ok.
  2:{ erewrite validate_run by lookup_tac. by rewrite Hvalid. }
  destruct (resolve_pure pv) as [prune_v|] eqn:Hprune.
  2:{ lazymatch goal with
      | |- ∃ _, (resolve ?l ≫= _) ?stx = _ ∧ _ =>
          destruct (resolve_Raise l stx pv) as (st' & Hrun & Hout & Hfr);
            [by lookup_tac|done|]
      end.
      exists st'. split_and!; [by erewrite bind_Raise by exact Hrun|done|].
      destruct Hfr as [Hlen Hkeep]. simpl in Hlen.
      rewrite !length_insert, !length_app in Hlen. simpl in Hlen.
      apply Hframe; [lia|]. intros l Hl.
      rewrite Hkeep; simpl.
      - by lookup_tac.
      - rewrite !length_insert, !length_app. simpl. lia.
      - apply not_elem_of_cons. split; [lia|apply not_elem_of_nil]. }
  erewrite bind_Ok by (eapply resolve_Ok; [|exact Hprune]; lookup_tac).
  f_equal. cbn [heap out]. f_equal.
  apply list_eq. intros i.
  destruct (decide (i < length (heap st))); [by lookup_tac|].
  destruct (decide (i = length (heap st))) as [->|].
  { lookup_tac; by rewrite lookup_app_r, Nat.sub_diag. }
  destruct (decide (i = S (length (heap st)))) as [->|].
  { lookup_tac;
      by replace (S (length (heap st)) - length (heap st)) with 1 by lia. }
  rewrite !lookup_ge_None_2; [done|..];
    rewrite ?length_insert, !length_app; simpl; lia.
Qed.

Lemma traverse_sim fuel self prune_ps recurse st sv pv :
  heap st !! self = Some sv →
  heap st !! prune_ps = Some pv →
  simulates [] (traverse fuel self prune_ps recurse) st (S (length (heap st)))
            (traverse_pure fuel sv pv recurse).
Proof.
  intros Hs Hp.
  pose proof (traverse_prologue fuel self prune_ps recurse st sv pv Hs Hp)
    as Hpro.
  unfold simulates, traverse_pure.
  destruct (prepare sv) as [source_v|].
  2:{ destruct Hpro as (st' & -> & Hout & Hframe).
      exists st'. by rewrite app_nil_r. }
  destruct (validate_pure source_v) as [e|].
  { destruct Hpro as (st' & -> & Hout & Hframe).
    exists st'. by rewrite app_nil_r. }
  destruct (resolve_pure pv) as [prune_v|].
  2:{ destruct Hpro as (st' & -> & Hout & Hframe).
      exists st'. by rewrite app_nil_r. }
  rewrite Hpro.
  rewrite <- (after_yield_nil (_traverse_pure _ _ _ _ _)).
  eapply ends_like_later; cycle 3.
  - apply _traverse_sim; [lia|..].
    + simpl. by rewrite lookup_app_r, Nat.sub_diag.
    + simpl. rewrite lookup_app_r by lia.
      by replace (S (length (heap st)) - length (heap st)) with 1 by lia.
  - split; simpl; [rewrite length_app; lia|].
    intros l Hl _. by apply lookup_app_l.
  - simpl. by rewrite app_nil_r.
  - intros l Hl _. rewrite !not_elem_of_cons.
    split_and!; [lia..|apply not_elem_of_nil].
Qed.


End Simulation.
(** ** Pruning *)

Section Pruning.
Context `{Posix}.

Lemma elem_of_prune_scan {A} (test : A → string → bool) prune_path sources acc x :
  x ∈ prune_scan test prune_path sources acc ↔
  x ∈ acc ∨ (x ∈ sources ∧ test prune_path x = true).
Proof.
  unfold prune_scan. revert acc.
  induction sources as [|y sources IH]; intros acc; simpl.
  - rewrite elem_of_nil. tauto.
  - rewrite IH, elem_of_cons. destruct (test prune_path y) eqn:Htest.
    + rewrite elem_of_union, elem_of_singleton.
      intuition (subst; auto).
    + intuition (subst; auto; congruence).
Qed.

Lemma elem_of_prune_by_dirs_acc self_ps prunes acc x :
  let r := foldl (λ '(prune_from_dirs, prune_from_files) prune_path,
           (prune_scan str_in prune_path (iter_set (dirs self_ps)) prune_from_dirs,
            prune_scan str_in prune_path (iter_set (files self_ps)) prune_from_files))
        acc prunes in
  (x ∈ r.1 ↔ x ∈ acc.1 ∨ (x ∈ dirs self_ps ∧ ∃ y, y ∈ prunes ∧ str_in y x = true)) ∧
  (x ∈ r.2 ↔ x ∈ acc.2 ∨ (x ∈ files self_ps ∧ ∃ y, y ∈ prunes ∧ str_in y x = true)).
Proof.
  revert acc. induction prunes as [|p prunes IH]; intros [a b]; simpl.
  - setoid_rewrite elem_of_nil. naive_solver.
  - destruct (IH (prune_scan str_in p (iter_set (dirs self_ps)) a,
                  prune_scan str_in p (iter_set (files self_ps)) b)) as [IH1 IH2].
    simpl in *. rewrite IH1, IH2, !elem_of_prune_scan, !elem_of_iter_set.
    setoid_rewrite elem_of_cons. naive_solver.
Qed.

Lemma elem_of_prune_by_dirs self_ps prune_ps x :
  (x ∈ (prune_by_dirs self_ps prune_ps).1 ↔
     x ∈ dirs self_ps ∧ ∃ y, y ∈ dirs prune_ps ∧ str_in y x = true) ∧
  (x ∈ (prune_by_dirs self_ps prune_ps).2 ↔
     x ∈ files self_ps ∧ ∃ y, y ∈ dirs prune_ps ∧ str_in y x = true).
Proof.
  unfold prune_by_dirs.
  destruct (elem_of_prune_by_dirs_acc self_ps (iter_set (dirs prune_ps)) (∅, ∅) x)
    as [H1 H2].
  simpl in *. rewrite H1, H2. setoid_rewrite elem_of_iter_set.
  set_solver.
Qed.

Lemma elem_of_prune_eq_acc sources prunes acc x :
  x ∈ foldl (λ acc prune_path,
               prune_scan (λ p s, bool_decide (p = s)) prune_path sources acc)
            acc prunes ↔
  x ∈ acc ∨ (x ∈ sources ∧ x ∈ prunes).
Proof.
  revert acc. induction prunes as [|p prunes IH]; intros acc; simpl.
  - rewrite elem_of_nil. tauto.
  - rewrite IH, elem_of_prune_scan, elem_of_cons, bool_decide_eq_true.
    naive_solver.
Qed.

Lemma elem_of_prune_by_files self_ps prune_ps acc x :
  x ∈ prune_by_files self_ps prune_ps acc ↔
  x ∈ acc ∨ (x ∈ files self_ps ∧ x ∈ files prune_ps).
Proof.
  unfold prune_by_files. by rewrite elem_of_prune_eq_acc, !elem_of_iter_set.
Qed.

Lemma elem_of_prune_by_globs self_ps prune_ps x :
  x ∈ prune_by_globs self_ps prune_ps ↔
  x ∈ globs self_ps ∧ x ∈ globs prune_ps.
Proof.
  unfold prune_by_globs. rewrite elem_of_prune_eq_acc, !elem_of_iter_set.
  set_solver.
Qed.

(** What [prune] keeps. *)
Lemma elem_of_dirs_prune self_ps prune_ps x :
  x ∈ dirs (prune_pure self_ps prune_ps) ↔
  x ∈ dirs self_ps ∧ ¬ ∃ y, y ∈ dirs prune_ps ∧ substring_of y x.
Proof.
  unfold prune_pure. simpl.
  rewrite elem_of_difference, (proj1 (elem_of_prune_by_dirs _ _ _)).
  setoid_rewrite str_in_spec. naive_solver.
Qed.

Lemma elem_of_files_prune self_ps prune_ps x :
  x ∈ files (prune_pure self_ps prune_ps) ↔
  x ∈ files self_ps ∧
  ¬ ((∃ y, y ∈ dirs prune_ps ∧ substring_of y x) ∨ x ∈ files prune_ps).
Proof.
  unfold prune_pure. simpl.
  rewrite elem_of_difference, elem_of_prune_by_files,
    (proj2 (elem_of_prune_by_dirs _ _ _)).
  setoid_rewrite str_in_spec. naive_solver.
Qed.

Lemma elem_of_globs_prune self_ps prune_ps x :
  x ∈ globs (prune_pure self_ps prune_ps) ↔
  x ∈ globs self_ps ∧ x ∉ globs prune_ps.
Proof.
  unfold prune_pure. simpl.
  rewrite elem_of_difference, elem_of_prune_by_globs. naive_solver.
Qed.

(** C1, as amended.  [prune(self, other)] removes from [self.dirs] exactly
    the paths that contain the string of some member of [other.dirs],
    from [self.files] exactly the paths that contain the string of some
    member of [other.dirs] or equal a member of [other.files], from
    [self.globs] exactly the patterns equal to a member of [other.globs];
    it yields nothing and changes no object but [self], so that [other]
    keeps its three sets whenever it is another object than [self]. *)
Theorem prune_removes_matching st self other self_v other_v :
  heap st !! self = Some self_v →
  heap st !! other = Some other_v →
  ∃ st' self_v',
    prune self other st = Ok tt st' ∧
    out st' = out st ∧
    heap st' !! self = Some self_v' ∧
    (∀ x, x ∈ dirs self_v' ↔
          x ∈ dirs self_v ∧ ¬ ∃ y, y ∈ dirs other_v ∧ substring_of y x) ∧
    (∀ x, x ∈ files self_v' ↔
          x ∈ files self_v ∧
          ¬ ((∃ y, y ∈ dirs other_v ∧ substring_of y x) ∨
             (∃ y, y ∈ files other_v ∧ y = x))) ∧
    (∀ x, x ∈ globs self_v' ↔
          x ∈ globs self_v ∧ ¬ ∃ y, y ∈ globs other_v ∧ y = x) ∧
    length (heap st') = length (heap st) ∧
    (∀ l, l ≠ self → heap st' !! l = heap st !! l).
Proof.
  intros Hself Hother.
  exists (mkState (<[self := prune_pure self_v other_v]> (heap st)) (out st)),
         (prune_pure self_v other_v).
  split_and!.
  - by apply prune_run.
  - done.
  - simpl. apply list_lookup_insert_eq. by eapply lookup_lt_Some.
  - apply elem_of_dirs_prune.
  - intros x. rewrite elem_of_files_prune.
    split; intros [Hx Hnot]; (split; [done|]); intros [Hd|Hf]; apply Hnot.
    + by left.
    + right. by destruct Hf as (y & Hy & ->).
    + by left.
    + right. by exists x.
  - intros x. rewrite elem_of_globs_prune.
    split; intros [Hx Hnot]; (split; [done|]).
    + by intros (y & Hy & ->).
    + intros Hx'. apply Hnot. by exists x.
  - simpl. apply length_insert.
  - intros l Hl. simpl. by apply list_lookup_insert_ne.
Qed.

End Pruning.

Lemma prune_removes_matching_witness :
  ∃ st' self_v',
    prune 0 1 two_sets = Ok tt st' ∧
    out st' = out two_sets ∧
    heap st' !! 0 = Some self_v' ∧
    (∀ x, x ∈ dirs self_v' ↔
          x ∈ dirs sample_source ∧
          ¬ ∃ y, y ∈ dirs sample_prune ∧ substring_of y x) ∧
    (∀ x, x ∈ files self_v' ↔
          x ∈ files sample_source ∧
          ¬ ((∃ y, y ∈ dirs sample_prune ∧ substring_of y x) ∨
             (∃ y, y ∈ files sample_prune ∧ y = x))) ∧
    (∀ x, x ∈ globs self_v' ↔
          x ∈ globs sample_source ∧
          ¬ ∃ y, y ∈ globs sample_prune ∧ y = x) ∧
    length (heap st') = length (heap two_sets) ∧
    (∀ l, l ≠ 0 → heap st' !! l = heap two_sets !! l).
Proof.
  apply (prune_removes_matching two_sets 0 1 sample_source sample_prune);
    reflexivity.
Defined.

(** What the run of the witness leaves in the source set. *)
Example prune_two_sets :
  prune 0 1 two_sets =
    Ok tt (mkState [mkPathSet {["/c"]} {["/c/g.py"]} {["*.py"]};
                    mkPathSet {["/a/b"]} {["/d/h.py"]} {["*.md"]}] []).
Proof. vm_compute. reflexivity. Qed.

(** C1 as stated fails when [other] is [self]: pruning a set against
    itself empties it, so [other]'s sets do change. *)
Lemma prune_changes_aliased_other :
  heap aliased !! 0 = Some (mkPathSet {["/a"]} {["/a/f.py"]} {["*.py"]}) ∧
  ∃ st', prune 0 0 aliased = Ok tt st' ∧
         heap st' !! 0 = Some (mkPathSet ∅ ∅ ∅) ∧
         heap st' !! 0 ≠ heap aliased !! 0.
Proof.
  split; [reflexivity|]. eexists. split; [vm_compute; reflexivity|].
  split; [vm_compute; reflexivity|]. vm_compute. intros [=].
Qed.
(** ** Classification *)

Section Classification.
Context `{Posix}.

(** C3, as amended.  [add] classifies a specifier, once its environment
    variables are expanded, by the ordered rule: a wildcard makes it a
    glob, whatever the file system holds; otherwise an existing directory
    is a directory; otherwise a path that is not an existing regular file
    and has no period or ends in a separator is a directory; anything
    else is a file.  Only the object being added to changes. *)
Theorem add_classifies st self ps source :
  heap st !! self = Some ps →
  ∃ ps',
    add self [source] st =
      Ok tt (mkState (<[self := ps']> (heap st)) (out st)) ∧
    (str_in "*" (expandvars source) = true →
       ps' = placed AsGlob (expandvars source) ps) ∧
    (str_in "*" (expandvars source) = false →
     is_dir (Path (expandvars source)) = true →
       ps' = placed AsDir (expandvars source) ps) ∧
    (str_in "*" (expandvars source) = false →
     is_dir (Path (expandvars source)) = false →
     is_file (Path (expandvars source)) = false →
     str_in "." (expandvars source) = false ∨
       ends_with_sep (expandvars source) = true →
       ps' = placed AsDir (expandvars source) ps) ∧
    (str_in "*" (expandvars source) = false →
     is_dir (Path (expandvars source)) = false →
     is_file (Path (expandvars source)) = true ∨
       (str_in "." (expandvars source) = true ∧
        ends_with_sep (expandvars source) = false) →
       ps' = placed AsFile (expandvars source) ps).
Proof.
  intros Hself. exists (add_pure ps [source]).
  split; [by apply add_run|].
  unfold add_pure, add_one_pure, placed. simpl.
  destruct (str_in "*" (expandvars source)),
    (is_dir (Path (expandvars source))),
    (is_file (Path (expandvars source))),
    (str_in "." (expandvars source)),
    (ends_with_sep (expandvars source)); simpl;
    split_and!; intros; try done; intuition discriminate.
Qed.

End Classification.

Lemma add_classifies_witness :
  ∃ ps',
    add 0 ["proj/"] one_empty =
      Ok tt (mkState (<[0 := ps']> (heap one_empty)) (out one_empty)) ∧
    (str_in "*" (expandvars "proj/") = true →
       ps' = placed AsGlob (expandvars "proj/") empty_PathSet) ∧
    (str_in "*" (expandvars "proj/") = false →
     is_dir (Path (expandvars "proj/")) = true →
       ps' = placed AsDir (expandvars "proj/") empty_PathSet) ∧
    (str_in "*" (expandvars "proj/") = false →
     is_dir (Path (expandvars "proj/")) = false →
     is_file (Path (expandvars "proj/")) = false →
     str_in "." (expandvars "proj/") = false ∨
       ends_with_sep (expandvars "proj/") = true →
       ps' = placed AsDir (expandvars "proj/") empty_PathSet) ∧
    (str_in "*" (expandvars "proj/") = false →
     is_dir (Path (expandvars "proj/")) = false →
     is_file (Path (expandvars "proj/")) = true ∨
       (str_in "." (expandvars "proj/") = true ∧
        ends_with_sep (expandvars "proj/") = false) →
       ps' = placed AsFile (expandvars "proj/") empty_PathSet).
Proof.
  apply (add_classifies (H := project_posix) one_empty 0 empty_PathSet "proj/").
  reflexivity.
Defined.

(** The four kinds of specifier on the sample machine. *)
Example add_samples :
  PathSet_init ["*.py"; "proj/"; "proj/a.py"; "gone/"; "gone.txt"; "gone"]
               initial_state =
    Ok 0 (mkState [mkPathSet {["proj"; "gone"]} {["proj/a.py"; "gone.txt"]}
                             {["*.py"]}] []).
Proof. vm_compute. reflexivity. Qed.

(** C3 as stated fails on a path that exists but is neither a regular
    file nor a directory: [/dev/null] has no wildcard, is not a directory
    and does exist, so the stated rule makes it a file; [add] makes it a
    directory. *)
Lemma add_device_is_directory :
  str_in "*" "/dev/null" = false ∧
  is_dir (Path "/dev/null") = false ∧
  path_exists (Path "/dev/null") = true ∧
  claimed_kind "/dev/null" = AsFile ∧
  PathSet_init ["/dev/null"] initial_state =
    Ok 0 (mkState [mkPathSet {["/dev/null"]} ∅ ∅] []) ∧
  placed (claimed_kind "/dev/null") "/dev/null" empty_PathSet ≠
    mkPathSet {["/dev/null"]} ∅ ∅.
Proof.
  split_and!; try (vm_compute; reflexivity). vm_compute. intros [=].
Qed.
(** ** Validation *)

Section Validation.
Context `{Posix}.

Lemma validate_paths_pure_None paths :
  validate_paths_pure paths = None ↔ ∀ p, p ∈ paths → valid p.
Proof.
  unfold valid. induction paths as [|q paths IH]; simpl.
  - split; [|done]. intros _ p Hp. by apply elem_of_nil in Hp.
  - destruct (path_exists q) eqn:He; simpl.
    + destruct (is_dir q) eqn:Hd, (is_file q) eqn:Hf; simpl;
        try (rewrite IH; split;
             [intros Hall p [->|Hp]%elem_of_cons; [rewrite He, ?Hd, ?Hf; auto|auto]
             |intros Hall p Hp; apply Hall; by right]).
      split; [done|]. intros Hall.
      destruct (Hall q) as [_ [?|?]]; [by left|congruence..].
    + split; [done|]. intros Hall.
      destruct (Hall q) as [? _]; [by left|congruence].
Qed.


Lemma validate_pure_None ps :
  validate_pure ps = None ↔ ∀ p, p ∈ dirs ps ∪ files ps → valid p.
Proof.
  unfold validate_pure.
  destruct (validate_paths_pure (iter_set (dirs ps))) as [e|] eqn:Hd.
  - split; [done|]. intros Hall.
    assert (validate_paths_pure (iter_set (dirs ps)) = None) as Hn; [|congruence].
    apply validate_paths_pure_None. intros p Hp%elem_of_iter_set.
    apply Hall. set_solver.
  - rewrite validate_paths_pure_None in Hd. rewrite validate_paths_pure_None.
    split.
    + intros Hf p [Hp|Hp]%elem_of_union; [apply Hd|apply Hf];
        by apply elem_of_iter_set.
    + intros Hall p Hp%elem_of_iter_set. apply Hall. set_solver.
Qed.










Lemma resolve_pure_Some ps resolved :
  resolve_pure ps = Some resolved →
  (∀ r, r ∈ dirs resolved ↔ ∃ x, x ∈ dirs ps ∧ resolve_path x = Some r) ∧
  (∀ r, r ∈ files resolved ↔ ∃ x, x ∈ files ps ∧ resolve_path x = Some r) ∧
  globs resolved = globs ps.
Proof.
  unfold resolve_pure.
  destruct (resolve_paths (dirs ps)) as [rd|] eqn:Hd; [|done].
  destruct (resolve_paths (files ps)) as [rf|] eqn:Hf; [|done].
  intros [= <-]. simpl.
  apply resolve_paths_Some in Hd as [_ Hd], Hf as [_ Hf]. done.
Qed.






End Validation.


(** ** The license mutation *)

Section LicenseFacts.
Context `{Posix}.

Lemma str_in_app_l s t : str_in s (s +:+ t) = true.
Proof. apply str_in_spec. by exists "", t. Qed.

Lemma add_license_loop_keeps license_text files disk k text :
  disk !! k = Some text →
  str_in license_text text = true →
  (add_license_loop license_text files disk).1 !! k = Some text.
Proof.
  revert disk. induction files as [|file files IH]; intros disk Hk Hin;
    simpl; [done|].
  unfold read_text.
  destruct (disk !! path_resolve file) as [file_text|] eqn:Hfile; [|done].
  destruct (str_in license_text file_text) eqn:Hhas; simpl; [by apply IH|].
  apply IH; [|done]. unfold write_text.
  rewrite lookup_insert_ne; [done|]. intros <-. congruence.
Qed.

Lemma add_license_loop_idempotent license_text files disk :
  add_license_loop license_text files
    (add_license_loop license_text files disk).1 =
  add_license_loop license_text files disk.
Proof.
  revert disk. induction files as [|file files IH]; intros disk; simpl; [done|].
  unfold read_text.
  destruct (disk !! path_resolve file) as [file_text|] eqn:Hfile;
    [|simpl; unfold read_text; by rewrite Hfile].
  destruct (str_in license_text file_text) eqn:Hhas; simpl.
  - unfold read_text.
    rewrite (add_license_loop_keeps _ _ _ _ file_text) by done.
    rewrite Hhas. simpl. apply IH.
  - unfold read_text, write_text.
    rewrite (add_license_loop_keeps _ _ _ _ (license_text +:+ file_text)).
    + rewrite str_in_app_l. simpl. apply IH.
    + apply lookup_insert_eq.
    + apply str_in_app_l.
Qed.

(** C9.  The license mutation prepends the license text to the content of
    a file exactly when that text is not already a substring of it, and
    leaves the file alone otherwise; running the mutation a second time on
    the same files changes nothing more and ends the same way. *)
Theorem add_license_idempotent license files file license_text file_text disk :
  read_text disk license = Some license_text →
  read_text disk file = Some file_text →
  (¬ substring_of license_text file_text →
     read_text (add_license license [file] disk).1 file =
       Some (license_text +:+ file_text)) ∧
  (substring_of license_text file_text →
     (add_license license [file] disk).1 = disk) ∧
  add_license license files (add_license license files disk).1 =
    add_license license files disk.
Proof.
  intros Hlic Hfile. unfold add_license. rewrite Hlic. split_and!.
  - intros Hnot. simpl. rewrite Hfile.
    destruct (str_in license_text file_text) eqn:Hin.
    + by apply str_in_spec in Hin.
    + simpl. unfold read_text, write_text. apply lookup_insert_eq.
  - intros Hsub%str_in_spec. simpl. by rewrite Hfile, Hsub.
  - unfold read_text in *.
    rewrite (add_license_loop_keeps _ _ _ _ license_text);
      [|done|apply str_in_refl].
    apply add_license_loop_idempotent.
Qed.
End LicenseFacts.

Lemma add_license_idempotent_witness :
  (¬ substring_of "# MIT licence;" "print(1)" →
     read_text (add_license "LICENSE" ["/w/proj/a.py"] sample_disk).1
               "/w/proj/a.py" =
       Some ("# MIT licence;" +:+ "print(1)")) ∧
  (substring_of "# MIT licence;" "print(1)" →
     (add_license "LICENSE" ["/w/proj/a.py"] sample_disk).1 = sample_disk) ∧
  add_license "LICENSE" ["/w/proj/a.py"; "/w/LICENSE"; "/w/proj/a.py"]
    (add_license "LICENSE" ["/w/proj/a.py"; "/w/LICENSE"; "/w/proj/a.py"]
                 sample_disk).1 =
    add_license "LICENSE" ["/w/proj/a.py"; "/w/LICENSE"; "/w/proj/a.py"]
                sample_disk.
Proof.
  apply (add_license_idempotent (H := project_posix) "LICENSE"
           ["/w/proj/a.py"; "/w/LICENSE"; "/w/proj/a.py"] "/w/proj/a.py"
           "# MIT licence;" "print(1)" sample_disk);
    reflexivity.
Defined.

(** The sample run: the source file gets the license once, the license
    file itself is left alone. *)
Example add_license_sample :
  add_license "LICENSE" ["/w/proj/a.py"; "/w/LICENSE"; "/w/proj/a.py"]
              sample_disk =
    ({[ "/w/LICENSE" := "# MIT licence;";
        "/w/proj/a.py" := "# MIT licence;print(1)" ]}, true).
Proof. vm_compute. reflexivity. Qed.
(** ** The caller's sets are left alone *)

Section Frame.
Context `{Posix}.

Lemma behaviour_ends_like modified st p r w :
  ends_like modified st p r w → behaviour r = walk_behaviour (out st) w.
Proof.
  destruct w as [ys pv|ys e|]; simpl.
  - intros (st' & -> & Hout & _). unfold behaviour. simpl. by rewrite Hout.
  - intros (st' & -> & Hout & _). unfold behaviour. simpl. by rewrite Hout.
  - by intros ->.
Qed.

Lemma after_yield_not_Starved ys w : w ≠ Starved → after_yield ys w ≠ Starved.
Proof. by destruct w. Qed.

Lemma walk_dirs_not_Starved V ds pv :
  (∀ d pv, V d pv ≠ Starved) → walk_dirs V ds pv ≠ Starved.
Proof.
  intros HV. revert pv. induction ds as [|d ds IH]; intros pv; simpl; [done|].
  specialize (HV d pv). destruct (V d pv) as [ys pv'| |]; try done.
  by apply after_yield_not_Starved.
Qed.

Lemma _traverse_pure_flat fuel sv pv depth :
  2 ≤ fuel → _traverse_pure fuel sv pv false depth ≠ Starved.
Proof.
  intros Hfuel. destruct fuel as [|[|fuel]]; [lia..|].
  cbn [_traverse_pure]. apply after_yield_not_Starved.
  destruct (negb false && bool_decide (0 < depth)); [done|].
  apply walk_dirs_not_Starved. intros d pv'. unfold visit_dir.
  destruct (child_set _ d); [done|]. destruct (prune_grow pv' d); [done|].
  simpl. done.
Qed.

(** C8.  A traversal works on copies: whether it runs to its end or
    raises, every object that existed before the call, the caller's source
    and prune sets among them, holds the same three sets afterwards; and a
    traversal that ran to its end can be run again on the same two
    objects, yielding the same paths.  (Without recursion two levels of
    fuel always suffice.) *)
Theorem traverse_leaves_inputs fuel st self prune_ps recurse sv pv :
  heap st !! self = Some sv →
  heap st !! prune_ps = Some pv →
  (recurse = false → 2 ≤ fuel →
     traverse fuel self prune_ps recurse st ≠ OutOfFuel) ∧
  (∀ e st', traverse fuel self prune_ps recurse st = Raise e st' →
     ∀ l, l < length (heap st) → heap st' !! l = heap st !! l) ∧
  (∀ st', traverse fuel self prune_ps recurse st = Ok tt st' →
     (∀ l, l < length (heap st) → heap st' !! l = heap st !! l) ∧
     heap st' !! self = Some sv ∧
     heap st' !! prune_ps = Some pv ∧
     ∃ ys st'', out st' = out st ++ ys ∧
                traverse fuel self prune_ps recurse st' = Ok tt st'' ∧
                out st'' = out st' ++ ys).
Proof.
  intros Hself Hprune.
  pose proof (traverse_sim fuel self prune_ps recurse st sv pv Hself Hprune)
    as Hsim.
  unfold simulates in Hsim. split_and!.
  - intros -> Hfuel Hrun. rewrite Hrun in Hsim.
    unfold traverse_pure in Hsim.
    destruct (prepare sv) as [source_v|];
      [|by destruct Hsim as (? & ? & _)].
    destruct (validate_pure source_v); [by destruct Hsim as (? & ? & _)|].
    destruct (resolve_pure pv) as [prune_v|];
      [|by destruct Hsim as (? & ? & _)].
    pose proof (_traverse_pure_flat fuel source_v prune_v 0 Hfuel).
    destruct (_traverse_pure fuel source_v prune_v false 0);
      cbn [ends_like] in Hsim; [by destruct Hsim as (? & ? & _)..|done].
  - intros e st' Hrun l Hl. rewrite Hrun in Hsim.
    destruct (traverse_pure fuel sv pv recurse); simpl in Hsim; try done.
    + by destruct Hsim as (? & ? & _).
    + destruct Hsim as (st0 & [= <- <-] & _ & _ & Hkeep).
      apply Hkeep; [done|apply not_elem_of_nil].
  - intros st' Hrun. rewrite Hrun in Hsim.
    destruct (traverse_pure fuel sv pv recurse) as [ys pv'| |] eqn:Hpure;
      simpl in Hsim; try done; [|by destruct Hsim as (? & ? & _)].
    destruct Hsim as (st0 & [= <-] & Hout & _ & Hlen & Hkeep).
    assert (∀ l, l < length (heap st) → heap st' !! l = heap st !! l) as Hsame.
    { intros l Hl. apply Hkeep; [done|apply not_elem_of_nil]. }
    assert (heap st' !! self = Some sv) as Hself'.
    { rewrite Hsame; [done|by eapply lookup_lt_Some]. }
    assert (heap st' !! prune_ps = Some pv) as Hprune'.
    { rewrite Hsame; [done|by eapply lookup_lt_Some]. }
    split_and!; try done.
    pose proof (traverse_sim fuel self prune_ps recurse st' sv pv Hself' Hprune')
      as Hsim'.
    unfold simulates in Hsim'. rewrite Hpure in Hsim'. simpl in Hsim'.
    destruct Hsim' as (st'' & Hrun' & Hout' & _).
    by exists ys, st''.
Qed.

End Frame.

Lemma traverse_leaves_inputs_witness :
  (true = false → 2 ≤ 5 → traverse 5 0 1 true project_sets ≠ OutOfFuel) ∧
  (∀ e st', traverse 5 0 1 true project_sets = Raise e st' →
     ∀ l, l < length (heap project_sets) →
          heap st' !! l = heap project_sets !! l) ∧
  (∀ st', traverse 5 0 1 true project_sets = Ok tt st' →
     (∀ l, l < length (heap project_sets) →
           heap st' !! l = heap project_sets !! l) ∧
     heap st' !! 0 = Some (mkPathSet {["proj"]} ∅ ∅) ∧
     heap st' !! 1 = Some empty_PathSet ∧
     ∃ ys st'', out st' = out project_sets ++ ys ∧
                traverse 5 0 1 true st' = Ok tt st'' ∧
                out st'' = out st' ++ ys).
Proof.
  apply (traverse_leaves_inputs (H := project_posix) 5 project_sets 0 1 true
           (mkPathSet {["proj"]} ∅ ∅) empty_PathSet);
    reflexivity.
Defined.

(** The run of the witness: the whole project is yielded, and the two
    sets of the caller are as before. *)
Example traverse_project :
  ∃ st', traverse 5 0 1 true project_sets = Ok tt st' ∧
         out st' = ["/w/proj/a.py"; "/w/proj/notes.txt"; "/w/proj/sub/b.py";
                    "/w/proj/build/x.py"] ∧
         take 2 (heap st') = heap project_sets.
Proof. eexists. split_and!; vm_compute; reflexivity. Qed.
(** ** Default fill *)

Section DefaultFill.
Context `{Posix}.

Lemma main_files_behaviour fuel sources prune recurse st :
  behaviour (main_files fuel sources prune recurse st) =
  walk_behaviour (out st)
    (traverse_pure fuel (add_pure empty_PathSet sources)
                   (add_pure empty_PathSet prune) recurse).
Proof.
  unfold main_files.
  erewrite bind_Ok by apply PathSet_init_run.
  erewrite bind_Ok by apply PathSet_init_run.
  erewrite behaviour_ends_like; cycle 1.
  { apply traverse_sim; simpl.
    - apply lookup_snoc_first.
    - rewrite length_app. simpl. rewrite Nat.add_1_r. apply lookup_snoc_second. }
  done.
Qed.

Section Defaults.
Hypothesis expand_dot : expandvars "." = ".".
Hypothesis expand_star : expandvars "*" = "*".
Hypothesis cwd_is_dir : is_dir (Path ".") = true.

Lemma add_pure_dot ps :
  add_pure ps ["."] = mkPathSet (dirs ps ∪ {[Path "."]}) (files ps) (globs ps).
Proof.
  unfold add_pure, add_one_pure. simpl. rewrite expand_dot.
  change (str_in "*" ".") with false. cbv iota. by rewrite cwd_is_dir.
Qed.

Lemma add_pure_star ps :
  add_pure ps ["*"] = mkPathSet (dirs ps) (files ps) (globs ps ∪ {["*"]}).
Proof.
  unfold add_pure, add_one_pure. simpl. rewrite expand_star.
  by change (str_in "*" "*") with true.
Qed.

Lemma size_zero (X : gset string) : size X = 0 ↔ X = ∅.
Proof. rewrite size_empty_iff. by fold_leibniz. Qed.

Lemma fill_pwd_pure_spec ps :
  fill_pwd_pure ps =
    if bool_decide (size (files ps) = 0 ∧ size (dirs ps) = 0)
    then mkPathSet {[Path "."]} ∅ (globs ps) else ps.
Proof.
  unfold fill_pwd_pure. rewrite add_pure_dot.
  destruct (decide (size (files ps) = 0)) as [Hf|Hf],
           (decide (size (dirs ps) = 0)) as [Hd|Hd];
    rewrite ?(bool_decide_eq_true_2 _ Hf), ?(bool_decide_eq_true_2 _ Hd),
            ?(bool_decide_eq_false_2 _ Hf), ?(bool_decide_eq_false_2 _ Hd); simpl.
  - rewrite bool_decide_eq_true_2 by done.
    apply size_zero in Hf, Hd. rewrite Hf, Hd. f_equal; set_solver.
  - rewrite bool_decide_eq_false_2 by tauto. done.
  - rewrite bool_decide_eq_false_2 by tauto. done.
  - rewrite bool_decide_eq_false_2 by tauto. done.
Qed.

Lemma fill_all_pure_spec ps :
  fill_all_pure ps =
    if bool_decide (size (files ps) = 0 ∧ size (globs ps) = 0)
    then mkPathSet (dirs ps) ∅ {["*"]} else ps.
Proof.
  unfold fill_all_pure. rewrite add_pure_star.
  destruct (decide (size (files ps) = 0)) as [Hf|Hf],
           (decide (size (globs ps) = 0)) as [Hd|Hd];
    rewrite ?(bool_decide_eq_true_2 _ Hf), ?(bool_decide_eq_true_2 _ Hd),
            ?(bool_decide_eq_false_2 _ Hf), ?(bool_decide_eq_false_2 _ Hd); simpl.
  - rewrite bool_decide_eq_true_2 by done.
    apply size_zero in Hf, Hd. rewrite Hf, Hd. f_equal; set_solver.
  - rewrite bool_decide_eq_false_2 by tauto. done.
  - rewrite bool_decide_eq_false_2 by tauto. done.
  - rewrite bool_decide_eq_false_2 by tauto. done.
Qed.

Lemma add_pure_dot_empty :
  add_pure empty_PathSet ["."] = mkPathSet {[Path "."]} ∅ ∅.
Proof. rewrite add_pure_dot. simpl. f_equal; set_solver. Qed.

Lemma add_pure_dot_star_empty :
  add_pure empty_PathSet ["."; "*"] = mkPathSet {[Path "."]} ∅ {["*"]}.
Proof.
  change (add_pure empty_PathSet ["."; "*"])
    with (add_pure (add_pure empty_PathSet ["."]) ["*"]).
  rewrite add_pure_dot_empty, add_pure_star. simpl. f_equal; set_solver.
Qed.

Lemma fill_defaults globs0 :
  (globs0 = ∅ ∨ globs0 = {["*"]}) →
  fill_all_pure (fill_pwd_pure (mkPathSet {[Path "."]} ∅ globs0)) =
    mkPathSet {[Path "."]} ∅ {["*"]}.
Proof.
  intros Hglobs. rewrite fill_pwd_pure_spec. simpl.
  case_bool_decide as Hc.
  { destruct Hc as [_ Hc]. apply size_zero in Hc. set_solver. }
  rewrite fill_all_pure_spec. simpl.
  case_bool_decide as Hc'.
  - done.
  - destruct Hglobs as [->| ->]; [|done].
    exfalso. apply Hc'. split; reflexivity.
Qed.

Lemma fill_defaults_empty :
  fill_all_pure (fill_pwd_pure empty_PathSet) =
    mkPathSet {[Path "."]} ∅ {["*"]}.
Proof.
  rewrite fill_pwd_pure_spec.
  rewrite bool_decide_eq_true_2 by (split; reflexivity).
  rewrite fill_all_pure_spec.
  by rewrite bool_decide_eq_true_2 by (split; reflexivity).
Qed.

Lemma prepare_defaults :
  prepare empty_PathSet = prepare (add_pure empty_PathSet ["."]) ∧
  prepare empty_PathSet = prepare (add_pure empty_PathSet ["."; "*"]).
Proof.
  unfold prepare.
  rewrite add_pure_dot_empty, add_pure_dot_star_empty, fill_defaults_empty.
  by rewrite !fill_defaults by auto.
Qed.
End Defaults.

(** C6.  On a system where the working directory is a directory (and
    [.] and [*] hold no environment variable), the default fill of
    [traverse] turns a copy without directories and files into one whose
    only directory is the working directory, then a copy without files
    and globs into one whose only glob is the universal [*].  [traverse]
    applies the two steps, in this order, to its copy of the source set:
    once that copy is resolved and found valid, and the copy of the
    prune set is resolved, the traversal is the run of [_traverse] on
    two new objects holding the filled and resolved source set and the
    resolved prune set.  So the traversal of an empty list of sources
    behaves as the traversal of [["."]], and as that of [["."; "*"]]:
    the same paths are yielded and it ends the same way. *)
Theorem default_fill fuel st self source_ps prune_ps ps sv pv prune recurse :
  expandvars "." = "." →
  expandvars "*" = "*" →
  is_dir (Path ".") = true →
  heap st !! source_ps = Some ps →
  heap st !! self = Some sv →
  heap st !! prune_ps = Some pv →
  fill_pwd source_ps st =
    Ok tt (mkState
             (<[source_ps :=
                  if bool_decide (size (files ps) = 0 ∧ size (dirs ps) = 0)
                  then mkPathSet {[Path "."]} ∅ (globs ps) else ps]> (heap st))
             (out st)) ∧
  fill_all source_ps st =
    Ok tt (mkState
             (<[source_ps :=
                  if bool_decide (size (files ps) = 0 ∧ size (globs ps) = 0)
                  then mkPathSet (dirs ps) ∅ {["*"]} else ps]> (heap st))
             (out st)) ∧
  (∀ source_v prune_v,
     let with_pwd :=
       if bool_decide (size (files sv) = 0 ∧ size (dirs sv) = 0)
       then mkPathSet {[Path "."]} ∅ (globs sv) else sv in
     let with_all :=
       if bool_decide (size (files with_pwd) = 0 ∧ size (globs with_pwd) = 0)
       then mkPathSet (dirs with_pwd) ∅ {["*"]} else with_pwd in
     resolve_pure with_all = Some source_v →
     (∀ p, p ∈ dirs source_v ∪ files source_v → valid p) →
     resolve_pure pv = Some prune_v →
     traverse fuel self prune_ps recurse st =
       _traverse fuel (length (heap st)) (S (length (heap st))) recurse 0
                 (mkState (heap st ++ [source_v; prune_v]) (out st))) ∧
  behaviour (main_files fuel [] prune recurse st) =
    behaviour (main_files fuel ["."] prune recurse st) ∧
  behaviour (main_files fuel [] prune recurse st) =
    behaviour (main_files fuel ["."; "*"] prune recurse st).
Proof.
  intros Hdot Hstar Hcwd Hps Hself Hprune. split_and!.
  - rewrite (fill_pwd_run _ _ _ Hps). by rewrite fill_pwd_pure_spec.
  - rewrite (fill_all_run _ _ _ Hps). by rewrite fill_all_pure_spec.
  - intros source_v prune_v with_pwd with_all Hsource Hvalid Hpv.
    pose proof (traverse_prologue fuel self prune_ps recurse st sv pv
                  Hself Hprune) as Hpro.
    assert (prepare sv = Some source_v) as Hprep.
    { unfold prepare. by rewrite fill_pwd_pure_spec, fill_all_pure_spec. }
    rewrite Hprep in Hpro.
    apply validate_pure_None in Hvalid. by rewrite Hvalid, Hpv in Hpro.
  - rewrite !main_files_behaviour. unfold traverse_pure.
    change (add_pure empty_PathSet []) with empty_PathSet.
    by rewrite <- (proj1 (prepare_defaults Hdot Hstar Hcwd)).
  - rewrite !main_files_behaviour. unfold traverse_pure.
    change (add_pure empty_PathSet []) with empty_PathSet.
    by rewrite <- (proj2 (prepare_defaults Hdot Hstar Hcwd)).
Qed.

End DefaultFill.

Lemma default_fill_witness :
  fill_pwd 0 one_empty =
    Ok tt (mkState
             (<[0 := if bool_decide (size (files empty_PathSet) = 0
                                     ∧ size (dirs empty_PathSet) = 0)
                     then mkPathSet {[Path "."]} ∅ (globs empty_PathSet)
                     else empty_PathSet]> (heap one_empty))
             (out one_empty)) ∧
  fill_all 0 one_empty =
    Ok tt (mkState
             (<[0 := if bool_decide (size (files empty_PathSet) = 0
                                     ∧ size (globs empty_PathSet) = 0)
                     then mkPathSet (dirs empty_PathSet) ∅ {["*"]}
                     else empty_PathSet]> (heap one_empty))
             (out one_empty)) ∧
  (∀ source_v prune_v,
     let with_pwd :=
       if bool_decide (size (files empty_PathSet) = 0
                       ∧ size (dirs empty_PathSet) = 0)
       then mkPathSet {[Path "."]} ∅ (globs empty_PathSet)
       else empty_PathSet in
     let with_all :=
       if bool_decide (size (files with_pwd) = 0 ∧ size (globs with_pwd) = 0)
       then mkPathSet (dirs with_pwd) ∅ {["*"]} else with_pwd in
     resolve_pure with_all = Some source_v →
     (∀ p, p ∈ dirs source_v ∪ files source_v → valid p) →
     resolve_pure empty_PathSet = Some prune_v →
     traverse 6 0 0 true one_empty =
       _traverse 6 (length (heap one_empty)) (S (length (heap one_empty)))
                 true 0
                 (mkState (heap one_empty ++ [source_v; prune_v])
                          (out one_empty))) ∧
  behaviour (main_files 6 [] ["proj/build"] true one_empty) =
    behaviour (main_files 6 ["."] ["proj/build"] true one_empty) ∧
  behaviour (main_files 6 [] ["proj/build"] true one_empty) =
    behaviour (main_files 6 ["."; "*"] ["proj/build"] true one_empty).
Proof.
  apply (default_fill (H := project_posix) 6 one_empty 0 0 0 empty_PathSet
           empty_PathSet empty_PathSet ["proj/build"] true);
    reflexivity.
Defined.
(** ** The prune set grows *)

Section Grow.
Context `{Posix}.


Lemma add_one_pure_placed ps source :
  add_one_pure ps source =
    placed (code_kind (expandvars source)) (expandvars source) ps.
Proof.
  unfold add_one_pure, code_kind, placed.
  destruct (str_in "*" (expandvars source)); [done|].
  by destruct (is_dir _ || _).
Qed.

Lemma elem_of_placed k e ps x :
  (x ∈ dirs (placed k e ps) ↔ x ∈ dirs ps ∨ (k = AsDir ∧ x = Path e)) ∧
  (x ∈ files (placed k e ps) ↔ x ∈ files ps ∨ (k = AsFile ∧ x = Path e)) ∧
  (x ∈ globs (placed k e ps) ↔ x ∈ globs ps ∨ (k = AsGlob ∧ x = e)).
Proof.
  destruct k; simpl; rewrite ?elem_of_union, ?elem_of_singleton;
    split_and!; split; intros; intuition congruence.
Qed.

Lemma exists_cons_iff (s : string) sources (P : string → Prop) :
  (∃ s', s' ∈ s :: sources ∧ P s') ↔ P s ∨ ∃ s', s' ∈ sources ∧ P s'.
Proof.
  split.
  - intros (s' & [->|Hin]%elem_of_cons & HP); [by left|right; by exists s'].
  - intros [HP|(s' & Hin & HP)]; [exists s|exists s']; (split; [|done]).
    + by left.
    + by right.
Qed.

Lemma elem_of_add_pure ps sources x :
  (x ∈ dirs (add_pure ps sources) ↔
     x ∈ dirs ps ∨ ∃ s, s ∈ sources ∧ (code_kind (expandvars s) = AsDir ∧
                        x = Path (expandvars s))) ∧
  (x ∈ files (add_pure ps sources) ↔
     x ∈ files ps ∨ ∃ s, s ∈ sources ∧ (code_kind (expandvars s) = AsFile ∧
                         x = Path (expandvars s))) ∧
  (x ∈ globs (add_pure ps sources) ↔
     x ∈ globs ps ∨ ∃ s, s ∈ sources ∧ (code_kind (expandvars s) = AsGlob ∧
                         x = expandvars s)).
Proof.
  unfold add_pure. revert ps.
  induction sources as [|s sources IH]; intros ps; simpl.
  - split_and!; (split; [by left|]); by intros [?|(? & ?%elem_of_nil & _)].
  - destruct (IH (add_one_pure ps s)) as (IHd & IHf & IHg).
    rewrite IHd, IHf, IHg, !exists_cons_iff. rewrite add_one_pure_placed.
    destruct (elem_of_placed (code_kind (expandvars s)) (expandvars s) ps x)
      as (Hd & Hf & Hg).
    rewrite Hd, Hf, Hg. tauto.
Qed.

Lemma add_pure_included ps sources : included ps (add_pure ps sources).
Proof.
  unfold included. split_and!; intros x Hx.
  - apply elem_of_add_pure. by left.
  - apply elem_of_add_pure. by left.
  - apply elem_of_add_pure. by left.
Qed.

Lemma included_refl ps : included ps ps.
Proof. by unfold included. Qed.

Lemma included_trans ps1 ps2 ps3 :
  included ps1 ps2 → included ps2 ps3 → included ps1 ps3.
Proof. unfold included. intros (?&?&?) (?&?&?). split_and!; set_solver. Qed.

Lemma prune_grow_included pv d pv' :
  prune_grow pv d = inr pv' → included pv pv'.
Proof.
  unfold prune_grow. destruct (resolve_globs_pure d (globs pv)); [done|].
  intros [= <-]. apply add_pure_included.
Qed.

Lemma after_yield_grows pv ys w : grows pv w → grows pv (after_yield ys w).
Proof. by destruct w. Qed.

Lemma walk_dirs_grows V ds pv :
  (∀ d pv, grows pv (V d pv)) → grows pv (walk_dirs V ds pv).
Proof.
  intros HV. revert pv. induction ds as [|d ds IH]; intros pv; simpl.
  - apply included_refl.
  - specialize (HV d pv). destruct (V d pv) as [ys pv'| |]; try done.
    apply after_yield_grows. specialize (IH pv').
    destruct (walk_dirs V ds pv'); try done. simpl in *.
    by eapply included_trans.
Qed.

Lemma visit_dir_grows B sv d pv :
  (∀ cv pv, grows pv (B cv pv)) → grows pv (visit_dir B sv d pv).
Proof.
  intros HB. unfold visit_dir. destruct (child_set sv d) as [|cv]; [done|].
  destruct (prune_grow pv d) as [|pv'] eqn:Hg; [done|].
  apply prune_grow_included in Hg. specialize (HB cv pv').
  destruct (B cv pv'); try done. simpl in *. by eapply included_trans.
Qed.

Lemma _traverse_pure_grows fuel sv pv recurse depth :
  grows pv (_traverse_pure fuel sv pv recurse depth).
Proof.
  revert sv pv depth. induction fuel as [|fuel IH]; intros sv pv depth; [done|].
  cbn [_traverse_pure]. apply after_yield_grows.
  destruct (negb recurse && bool_decide (0 < depth));
    [apply included_refl|].
  apply walk_dirs_grows. intros d pv'. apply visit_dir_grows. intros. apply IH.
Qed.

Lemma keeps_dir_included pv pv' path :
  included pv pv' → keeps_dir pv' path → keeps_dir pv path.
Proof. intros (Hd & _) Hk x Hx. apply Hk. set_solver. Qed.

Lemma keeps_file_included pv pv' path :
  included pv pv' → keeps_file pv' path → keeps_file pv path.
Proof.
  intros Hinc [Hk Hf]. split; [by eapply keeps_dir_included|].
  destruct Hinc as (_ & Hfiles & _). set_solver.
Qed.

Lemma elem_of_yields_after_yield y ys w :
  y ∈ yields (after_yield ys w) → y ∈ ys ∨ y ∈ yields w.
Proof.
  destruct w; simpl; rewrite ?elem_of_app; tauto.
Qed.

Lemma walk_dirs_kept V ds pv0 pv :
  included pv0 pv →
  (∀ d pv, grows pv (V d pv)) →
  (∀ d pv y, y ∈ yields (V d pv) → keeps_file pv y) →
  ∀ y, y ∈ yields (walk_dirs V ds pv) → keeps_file pv0 y.
Proof.
  intros Hinc Hgrow HV. revert pv Hinc.
  induction ds as [|d ds IH]; intros pv Hinc y; simpl.
  - by intros ?%elem_of_nil.
  - pose proof (Hgrow d pv) as Hg. pose proof (HV d pv y) as Hy.
    destruct (V d pv) as [ys pv'|ys e|]; simpl in *.
    + intros [Hin|Hin]%elem_of_yields_after_yield.
      * eapply keeps_file_included; eauto.
      * eapply (IH pv'); [by eapply included_trans|done].
    + intros Hin. eapply keeps_file_included; eauto.
    + by intros ?%elem_of_nil.
Qed.

Lemma _traverse_pure_kept fuel sv pv recurse depth y :
  y ∈ yields (_traverse_pure fuel sv pv recurse depth) → keeps_file pv y.
Proof.
  revert sv pv depth y.
  induction fuel as [|fuel IH]; intros sv pv depth y; simpl.
  { by intros ?%elem_of_nil. }
  intros [Hin|Hin]%elem_of_yields_after_yield.
  - apply elem_of_iter_set, elem_of_files_prune in Hin as [_ Hnot].
    split; [intros x Hx Hsub; apply Hnot; left; by exists x|].
    intros Hf. apply Hnot. by right.
  - destruct (negb recurse && bool_decide (0 < depth)); simpl in Hin.
    { by apply elem_of_nil in Hin. }
    revert Hin. apply walk_dirs_kept; [apply included_refl| |].
    + intros d pv'. apply visit_dir_grows. intros. apply _traverse_pure_grows.
    + intros d pv' y'. unfold visit_dir.
      destruct (child_set _ d) as [|cv]; [by intros ?%elem_of_nil|].
      destruct (prune_grow pv' d) as [|pv''] eqn:Hg; [by intros ?%elem_of_nil|].
      intros Hin%IH. eapply keeps_file_included; [|done].
      by eapply prune_grow_included.
Qed.

Lemma entered_add_pure ps sources s :
  s ∈ sources → entered s (add_pure ps sources).
Proof.
  intros Hs. unfold entered.
  destruct (code_kind (expandvars s)) eqn:Hk; apply elem_of_add_pure;
    right; by exists s.
Qed.

Lemma entered_included x ps ps' :
  included ps ps' → entered x ps → entered x ps'.
Proof.
  unfold entered, included. intros (?&?&?).
  destruct (code_kind (expandvars x)); set_solver.
Qed.


End Grow.


(** The run of the witness: the text file matched by the prune glob is
    added to the prune files, and is not yielded. *)
Example traverse_walk_sets :
  ∃ st', _traverse 5 0 1 true 0 walk_sets = Ok tt st' ∧
         out st' = ["/w/proj/a.py"; "/w/proj/sub/b.py"; "/w/proj/build/x.py"] ∧
         heap st' !! 1 = Some (mkPathSet ∅ {["/w/proj/notes.txt"]} {["*.txt"]}).
Proof. eexists. split_and!; vm_compute; reflexivity. Qed.
(** * Further properties of the code *)

(** ** The working set of a visited directory *)

Section Child.
Context `{Posix}.


Lemma entered_plain x ps :
  entered x ps → expandvars x = x → str_in "*" x = false → Path x = x →
  (is_dir x = true → x ∈ dirs ps) ∧
  (is_dir x = false → is_file x = true → x ∈ files ps).
Proof.
  unfold entered, code_kind. intros Hin He Hstar HP.
  rewrite !He, Hstar, !HP in Hin.
  split.
  - intros Hd. by rewrite Hd in Hin.
  - intros Hd Hf. by rewrite Hd, Hf in Hin.
Qed.

Lemma entered_glob g ps :
  entered g ps → expandvars g = g → str_in "*" g = true → g ∈ globs ps.
Proof.
  unfold entered, code_kind. intros Hin He Hstar.
  by rewrite !He, Hstar in Hin.
Qed.

Lemma elem_of_glob_union_pure path patterns acc found x :
  glob_union_pure path patterns acc = inr found →
  x ∈ found ↔
  x ∈ acc ∨ ∃ g ms, g ∈ patterns ∧ glob path g = Some ms ∧ x ∈ ms.
Proof.
  revert acc. induction patterns as [|g patterns IH]; intros acc; simpl.
  - intros [= <-]. split; [by left|].
    by intros [?|(? & ? & ?%elem_of_nil & _)].
  - destruct (glob path g) as [ms|] eqn:Hg; [|done].
    intros Hrest. rewrite (IH _ Hrest), elem_of_union, elem_of_list_to_set.
    split.
    + intros [[Ha|Hm]|(g' & ms' & Hin & Hg' & Hm)].
      * left. exact Ha.
      * right. exists g, ms. split_and!; [left|exact Hg|exact Hm].
      * right. exists g', ms'. split_and!; [by right|exact Hg'|exact Hm].
    + intros [Ha|(g' & ms' & [->|Hin]%elem_of_cons & Hg' & Hm)].
      * left. left. exact Ha.
      * left. right. congruence.
      * right. exists g', ms'. split_and!; [exact Hin|exact Hg'|exact Hm].
Qed.

Lemma elem_of_resolve_globs_pure path patterns found x :
  resolve_globs_pure path patterns = inr found →
  x ∈ found ↔
  ∃ g ms m, g ∈ patterns ∧ glob path g = Some ms ∧ m ∈ ms ∧
            resolve_path m = Some x.
Proof.
  unfold resolve_globs_pure.
  destruct (glob_union_pure path (iter_set patterns) ∅) as [|paths] eqn:Hu;
    [done|].
  destruct (resolve_paths paths) as [resolved|] eqn:Hres; [|done].
  intros [= <-]. apply resolve_paths_Some in Hres as [_ Hres].
  rewrite Hres.
  setoid_rewrite (elem_of_glob_union_pure _ _ _ _ _ Hu).
  setoid_rewrite elem_of_iter_set.
  split.
  - intros (m & [?%elem_of_empty|(g & ms & ? & ? & ?)] & Hm); [done|].
    by exists g, ms, m.
  - intros (g & ms & m & ? & ? & ? & Hm). exists m. split; [|done].
    right. by exists g, ms.
Qed.

Lemma resolve_globs_pure_resolves path patterns found g ms m :
  resolve_globs_pure path patterns = inr found →
  g ∈ patterns → glob path g = Some ms → m ∈ ms →
  ∃ r, resolve_path m = Some r ∧ r ∈ found.
Proof.
  intros Hfound Hg Hglob Hm.
  assert (is_Some (resolve_path m)) as [r Hr].
  { unfold resolve_globs_pure in Hfound.
    destruct (glob_union_pure path (iter_set patterns) ∅) as [|paths] eqn:Hu;
      [done|].
    destruct (resolve_paths paths) as [resolved|] eqn:Hres; [|done].
    apply resolve_paths_Some in Hres as [Hres _]. apply Hres.
    apply (elem_of_glob_union_pure _ _ _ _ _ Hu). right.
    exists g, ms. split_and!; [by apply elem_of_iter_set|done..]. }
  exists r. split; [done|].
  apply (elem_of_resolve_globs_pure _ _ _ _ Hfound). by exists g, ms, m.
Qed.

(** X1.  When a directory is visited and the library calls succeed, the
    recursive call receives a new object: a working set seeded with the
    parent's glob patterns, to which every immediate subdirectory and
    every resolved match of the parent's globs against that directory has
    been added as a specifier, each classified by the rule of [add].  So
    a matched regular file becomes a file specifier and a matched
    directory a directory specifier, and the patterns stay globs; nothing
    is yielded on the way, and the prune object holds its grown value. *)
Theorem child_working_set (below : nat → M unit) s p d st sv pv cv pv' :
  s ≠ p →
  heap st !! s = Some sv →
  heap st !! p = Some pv →
  child_set sv d = inr cv →
  prune_grow pv d = inr pv' →
  (∃ st1, visit below s p d st = below (length (heap st)) st1 ∧
          heap st1 !! length (heap st) = Some cv ∧
          heap st1 !! p = Some pv' ∧
          out st1 = out st) ∧
  (∀ g, g ∈ globs sv → entered g cv) ∧
  (∀ cs c, iterdir d = Some cs → c ∈ cs → is_dir c = true → entered c cv) ∧
  (∀ g ms m, g ∈ globs sv → glob d g = Some ms → m ∈ ms →
             ∃ r, resolve_path m = Some r ∧ entered r cv) ∧
  (∀ g, entered g cv → expandvars g = g → str_in "*" g = true →
        g ∈ globs cv) ∧
  (∀ x, entered x cv → expandvars x = x → str_in "*" x = false → Path x = x →
        (is_dir x = true → x ∈ dirs cv) ∧
        (is_dir x = false → is_file x = true → x ∈ files cv)).
Proof.
  intros Hne Hs Hp Hchild Hgrow.
  assert (s < length (heap st)) as Hslt by by eapply lookup_lt_Some.
  assert (p < length (heap st)) as Hplt by by eapply lookup_lt_Some.
  unfold child_set in Hchild. unfold prune_grow in Hgrow.
  destruct (iterdir d) as [children|] eqn:Hiter; [|done].
  destruct (resolve_globs_pure d (globs sv)) as [|matches] eqn:Hsrc; [done|].
  destruct (resolve_globs_pure d (globs pv)) as [|pmatches] eqn:Hprn; [done|].
  injection Hchild as <-. injection Hgrow as <-.
  split_and!.
  - unfold visit.
    erewrite bind_Ok by (by apply load_Ok).
    erewrite bind_Ok by apply PathSet_init_run.
    unfold do_iterdir. rewrite Hiter.
    erewrite bind_Ok by done.
    erewrite bind_Ok by (apply add_run; lookup_tac).
    erewrite bind_Ok by (apply load_Ok; lookup_tac).
    erewrite bind_Ok by (by apply resolve_globs_Ok).
    erewrite bind_Ok by (apply add_run; lookup_tac).
    erewrite bind_Ok by (apply load_Ok; lookup_tac).
    erewrite bind_Ok by (by apply resolve_globs_Ok).
    erewrite bind_Ok by (apply add_run; lookup_tac).
    eexists. split; [reflexivity|]. split_and!; by lookup_tac.
  - intros g Hg. eapply entered_included; [|eapply entered_included];
      [apply add_pure_included..|].
    apply entered_add_pure. by apply elem_of_iter_set.
  - intros cs c [= <-] Hc Hd. eapply entered_included; [apply add_pure_included|].
    apply entered_add_pure. by apply list_elem_of_filter.
  - intros g ms m Hg Hglob Hm.
    destruct (resolve_globs_pure_resolves _ _ _ _ _ _ Hsrc Hg Hglob Hm)
      as (r & Hr & Hin).
    exists r. split; [done|]. by apply entered_add_pure, elem_of_iter_set.
  - intros g. apply entered_glob.
  - intros x. apply entered_plain.
Qed.

End Child.

Lemma child_working_set_witness :
  (∃ st1, visit no_walk 0 1 "/w/proj" walk_sets
            = no_walk (length (heap walk_sets)) st1 ∧
          heap st1 !! length (heap walk_sets) = Some project_child ∧
          heap st1 !! 1 = Some (mkPathSet ∅ {["/w/proj/notes.txt"]} {["*.txt"]}) ∧
          out st1 = out walk_sets) ∧
  (∀ g, g ∈ globs (mkPathSet {["/w/proj"]} ∅ {["*"]}) →
        entered g project_child) ∧
  (∀ cs c, iterdir "/w/proj" = Some cs → c ∈ cs → is_dir c = true →
           entered c project_child) ∧
  (∀ g ms m, g ∈ globs (mkPathSet {["/w/proj"]} ∅ {["*"]}) →
             glob "/w/proj" g = Some ms → m ∈ ms →
             ∃ r, resolve_path m = Some r ∧ entered r project_child) ∧
  (∀ g, entered g project_child → expandvars g = g → str_in "*" g = true →
        g ∈ globs project_child) ∧
  (∀ x, entered x project_child → expandvars x = x → str_in "*" x = false →
        Path x = x →
        (is_dir x = true → x ∈ dirs project_child) ∧
        (is_dir x = false → is_file x = true → x ∈ files project_child)).
Proof.
  apply (child_working_set (H := project_posix) no_walk 0 1 "/w/proj"
           walk_sets (mkPathSet {["/w/proj"]} ∅ {["*"]})
           (mkPathSet ∅ ∅ {["*.txt"]}) project_child
           (mkPathSet ∅ {["/w/proj/notes.txt"]} {["*.txt"]}));
    [lia|reflexivity|reflexivity|vm_compute; reflexivity|vm_compute; reflexivity].
Defined.
(** ** What a traversal yields *)

Section Kept.
Context `{Posix}.


Lemma keeps_file_resolved pv prune_v y :
  resolve_pure pv = Some prune_v →
  keeps_file prune_v y ↔
  (∀ x r, x ∈ dirs pv → resolve_path x = Some r → ¬ substring_of r y) ∧
  (∀ x r, x ∈ files pv → resolve_path x = Some r → y ≠ r).
Proof.
  intros (Hdirs & Hfiles & _)%resolve_pure_Some.
  unfold keeps_file, keeps_dir. split.
  - intros [Hd Hf]. split.
    + intros x r Hx Hr. apply Hd, Hdirs. by exists x.
    + intros x r Hx Hr ->. apply Hf, Hfiles. by exists x.
  - intros [Hd Hf]. split.
    + intros r (x & Hx & Hr)%Hdirs. by eapply Hd.
    + intros (x & Hx & Hr)%Hfiles. by eapply Hf.
Qed.

(** X2.  A traversal never yields a pruned path: whether it runs to its
    end or is stopped by an exception, no path it yielded contains the
    resolved form of a prune directory as a substring, and none is the
    resolved form of a prune file. *)
Theorem traverse_yields_kept fuel st self prune_ps recurse sv pv st' :
  heap st !! self = Some sv →
  heap st !! prune_ps = Some pv →
  (traverse fuel self prune_ps recurse st = Ok tt st' ∨
   ∃ e, traverse fuel self prune_ps recurse st = Raise e st') →
  ∃ ys, out st' = out st ++ ys ∧
        ∀ y, y ∈ ys →
          (∀ x r, x ∈ dirs pv → resolve_path x = Some r →
                  ¬ substring_of r y) ∧
          (∀ x r, x ∈ files pv → resolve_path x = Some r → y ≠ r).
Proof.
  intros Hself Hprune Hrun.
  assert (∀ y, y ∈ yields (traverse_pure fuel sv pv recurse) →
               (∀ x r, x ∈ dirs pv → resolve_path x = Some r →
                       ¬ substring_of r y) ∧
               (∀ x r, x ∈ files pv → resolve_path x = Some r → y ≠ r))
    as Hkept.
  { intros y. unfold traverse_pure.
    destruct (prepare sv) as [source_v|]; [|by intros ?%elem_of_nil].
    destruct (validate_pure source_v); [by intros ?%elem_of_nil|].
    destruct (resolve_pure pv) as [prune_v|] eqn:Hpv;
      [|by intros ?%elem_of_nil].
    intros Hy. apply _traverse_pure_kept in Hy.
    by apply (keeps_file_resolved pv prune_v). }
  pose proof (traverse_sim fuel self prune_ps recurse st sv pv Hself Hprune)
    as Hsim.
  unfold simulates in Hsim.
  destruct (traverse_pure fuel sv pv recurse) as [ys pv'|ys e'|];
    cbn [ends_like yields] in Hsim, Hkept.
  - destruct Hsim as (st0 & Hrun0 & Hout & _).
    destruct Hrun as [Hrun|[e Hrun]]; rewrite Hrun in Hrun0; [|done].
    injection Hrun0 as <-. by exists ys.
  - destruct Hsim as (st0 & Hrun0 & Hout & _).
    destruct Hrun as [Hrun|[e Hrun]]; rewrite Hrun in Hrun0; [done|].
    injection Hrun0 as <- <-. by exists ys.
  - destruct Hrun as [Hrun|[e Hrun]]; congruence.
Qed.

Lemma elem_of_files_prune_keeps sv pv x :
  x ∈ files (prune_pure sv pv) ↔ x ∈ files sv ∧ keeps_file pv x.
Proof.
  rewrite elem_of_files_prune. unfold keeps_file, keeps_dir. split.
  - intros [Hx Hnot]. split; [done|]. split.
    + intros y Hy Hsub. apply Hnot. left. by exists y.
    + intros Hf. apply Hnot. by right.
  - intros [Hx [Hd Hf]]. split; [done|].
    intros [(y & Hy & Hsub)|Hin]; [by eapply Hd|done].
Qed.

Lemma elem_of_dirs_prune_keeps sv pv x :
  x ∈ dirs (prune_pure sv pv) ↔ x ∈ dirs sv ∧ keeps_dir pv x.
Proof.
  rewrite elem_of_dirs_prune. unfold keeps_dir. split.
  - intros [Hx Hnot]. split; [done|]. intros y Hy Hsub. apply Hnot. by exists y.
  - intros [Hx Hd]. split; [done|]. intros (y & Hy & Hsub). by eapply Hd.
Qed.

Lemma _traverse_pure_stops n sv pv depth :
  0 < depth →
  _traverse_pure (S n) sv pv false depth =
    Walked (iter_set (files (prune_pure sv pv)) ++ []) pv.
Proof.
  intros Hdepth. cbn [_traverse_pure negb andb].
  by rewrite bool_decide_eq_true_2 by done.
Qed.

(** The walk over the directories of a level whose recursive calls stop
    at once, as they do without recursion. *)
Lemma flat_walk (B : PathSet → PathSet → walk) wv ds pv ys pfin :
  (∀ s p, B s p = Walked (iter_set (files (prune_pure s p)) ++ []) p) →
  walk_dirs (visit_dir B wv) ds pv = Walked ys pfin →
  included pv pfin ∧
  (∀ y, y ∈ ys →
        ∃ d cv, d ∈ ds ∧ child_set wv d = inr cv ∧ y ∈ files cv) ∧
  (∀ d cv y, d ∈ ds → child_set wv d = inr cv → y ∈ files cv →
             keeps_file pfin y → y ∈ ys).
Proof.
  intros HB. revert pv ys.
  induction ds as [|d ds IH]; intros pv ys; cbn [walk_dirs].
  - intros [= <- <-]. split_and!; [apply included_refl|..].
    + by intros y ?%elem_of_nil.
    + by intros d cv y ?%elem_of_nil.
  - unfold visit_dir at 1.
    destruct (child_set wv d) as [|cv] eqn:Hchild; [done|].
    destruct (prune_grow pv d) as [|pv1] eqn:Hgrow; [done|].
    rewrite HB.
    destruct (walk_dirs _ ds pv1) as [zs pv2| |] eqn:Hrest; simpl; try done.
    intros [= <- <-].
    destruct (IH _ _ Hrest) as (Hinc & Hsound & Hcomplete).
    apply prune_grow_included in Hgrow as Hinc1.
    split_and!.
    + by eapply included_trans.
    + intros y [[Hy|Hy%elem_of_nil]%elem_of_app|Hy]%elem_of_app; [|done|].
      * exists d, cv. split_and!; [by left|done|].
        by apply elem_of_iter_set, elem_of_files_prune_keeps in Hy as [? _].
      * destruct (Hsound y Hy) as (d' & cv' & ? & ? & ?).
        exists d', cv'. split_and!; [by right|done..].
    + intros d' cv' y [->|Hd']%elem_of_cons Hcv' Hy Hkeep.
      * rewrite Hchild in Hcv'. injection Hcv' as <-.
        apply elem_of_app. left. apply elem_of_app. left.
        apply elem_of_iter_set, elem_of_files_prune_keeps. split; [done|].
        by eapply keeps_file_included.
      * apply elem_of_app. right. by eapply Hcomplete.
Qed.

(** X3.  Without recursion, a traversal that runs to its end yields the
    files of the prepared source set and the files of the working sets
    built for its directories, and nothing else: the directories of
    those working sets are never visited.  Every specified file the
    prune set keeps is yielded, and so is every file of the working set
    of a kept directory that the prune set left at the end keeps. *)
Theorem traverse_flat fuel st self prune_ps sv pv st' :
  heap st !! self = Some sv →
  heap st !! prune_ps = Some pv →
  2 ≤ fuel →
  traverse fuel self prune_ps false st = Ok tt st' →
  ∃ source_v prune_v ys pfin,
    prepare sv = Some source_v ∧
    resolve_pure pv = Some prune_v ∧
    out st' = out st ++ ys ∧
    heap st' !! S (length (heap st)) = Some pfin ∧
    included prune_v pfin ∧
    (∀ y, y ∈ ys →
       y ∈ files source_v ∨
       ∃ d cv, d ∈ dirs source_v ∧
               child_set (prune_pure source_v prune_v) d = inr cv ∧
               y ∈ files cv) ∧
    (∀ y, y ∈ files source_v → keeps_file prune_v y → y ∈ ys) ∧
    (∀ d cv y,
       d ∈ dirs source_v → keeps_dir prune_v d →
       child_set (prune_pure source_v prune_v) d = inr cv →
       y ∈ files cv → keeps_file pfin y → y ∈ ys).
Proof.
  intros Hself Hprune Hfuel Hrun.
  pose proof (traverse_sim fuel self prune_ps false st sv pv Hself Hprune)
    as Hsim.
  unfold simulates in Hsim. rewrite Hrun in Hsim.
  unfold traverse_pure in Hsim.
  destruct (prepare sv) as [source_v|];
    [|by destruct Hsim as (? & ? & _)].
  destruct (validate_pure source_v);
    [by destruct Hsim as (? & ? & _)|].
  destruct (resolve_pure pv) as [prune_v|];
    [|by destruct Hsim as (? & ? & _)].
  destruct fuel as [|[|n]]; [lia..|].
  cbn [_traverse_pure negb andb] in Hsim.
  rewrite bool_decide_eq_false_2 in Hsim by lia.
  set (wv := prune_pure source_v prune_v) in *.
  destruct (walk_dirs _ (iter_set (dirs wv)) prune_v)
    as [zs pfin| |] eqn:Hwalk; cbn [after_yield ends_like] in Hsim;
    [|by destruct Hsim as (? & ? & _)|done].
  destruct Hsim as (st0 & [= <-] & Hout & Hpfin & _).
  destruct (flat_walk _ _ _ _ _ _
              (λ s p, _traverse_pure_stops n s p 1 (Nat.lt_0_1)) Hwalk)
    as (Hinc & Hsound & Hcomplete).
  exists source_v, prune_v, (iter_set (files wv) ++ zs), pfin.
  split_and!; try done.
  - intros y [Hy|Hy]%elem_of_app.
    + left. by apply elem_of_iter_set, elem_of_files_prune_keeps in Hy as [? _].
    + right. destruct (Hsound y Hy) as (d & cv & Hd & ? & ?).
      exists d, cv. split_and!; try done.
      by apply elem_of_iter_set, elem_of_dirs_prune_keeps in Hd as [? _].
  - intros y Hy Hkeep. apply elem_of_app. left.
    by apply elem_of_iter_set, elem_of_files_prune_keeps.
  - intros d cv y Hd Hkd Hcv Hy Hkeep. apply elem_of_app. right.
    eapply Hcomplete; try done.
    by apply elem_of_iter_set, elem_of_dirs_prune_keeps.
Qed.

End Kept.

Lemma traverse_yields_kept_witness :
  ∃ ys, out pruned_done = out pruned_sets ++ ys ∧
        ∀ y, y ∈ ys →
          (∀ x r, x ∈ dirs (mkPathSet {["proj/build"]} ∅ ∅) →
                  resolve_path x = Some r → ¬ substring_of r y) ∧
          (∀ x r, x ∈ files (mkPathSet {["proj/build"]} ∅ ∅) →
                  resolve_path x = Some r → y ≠ r).
Proof.
  apply (traverse_yields_kept (H := project_posix) 5 pruned_sets 0 1 true
           (mkPathSet {["proj"]} ∅ ∅) (mkPathSet {["proj/build"]} ∅ ∅)
           pruned_done);
    [reflexivity|reflexivity|left; vm_compute; reflexivity].
Defined.

(** The scenario of the specification: the build directory is pruned. *)
Example traverse_pruned_sets :
  out pruned_done = ["/w/proj/a.py"; "/w/proj/notes.txt"; "/w/proj/sub/b.py"].
Proof. vm_compute. reflexivity. Qed.

Lemma traverse_flat_witness :
  ∃ source_v prune_v ys pfin,
    prepare project_source = Some source_v ∧
    resolve_pure empty_PathSet = Some prune_v ∧
    out flat_done = out project_sets ++ ys ∧
    heap flat_done !! S (length (heap project_sets)) = Some pfin ∧
    included prune_v pfin ∧
    (∀ y, y ∈ ys →
       y ∈ files source_v ∨
       ∃ d cv, d ∈ dirs source_v ∧
               child_set (prune_pure source_v prune_v) d = inr cv ∧
               y ∈ files cv) ∧
    (∀ y, y ∈ files source_v → keeps_file prune_v y → y ∈ ys) ∧
    (∀ d cv y,
       d ∈ dirs source_v → keeps_dir prune_v d →
       child_set (prune_pure source_v prune_v) d = inr cv →
       y ∈ files cv → keeps_file pfin y → y ∈ ys).
Proof.
  apply (traverse_flat (H := project_posix) 5 project_sets 0 1
           project_source empty_PathSet flat_done);
    [reflexivity|reflexivity|lia|vm_compute; reflexivity].
Defined.

(** Without recursion only the files directly in the project directory
    are yielded. *)
Example traverse_flat_project :
  out flat_done = ["/w/proj/a.py"; "/w/proj/notes.txt"].
Proof. vm_compute. reflexivity. Qed.
(** ** Building and pruning sets *)

Section Sets.
Context `{Posix}.


Lemma PathSet_eq ps1 ps2 :
  (∀ x, x ∈ dirs ps1 ↔ x ∈ dirs ps2) →
  (∀ x, x ∈ files ps1 ↔ x ∈ files ps2) →
  (∀ x, x ∈ globs ps1 ↔ x ∈ globs ps2) →
  ps1 = ps2.
Proof.
  destruct ps1, ps2. simpl. intros Hd Hf Hg.
  f_equal; by apply set_eq.
Qed.

Lemma add_pure_app ps sources1 sources2 :
  add_pure ps (sources1 ++ sources2) = add_pure (add_pure ps sources1) sources2.
Proof. unfold add_pure. apply foldl_app. Qed.

Lemma add_pure_same ps sources1 sources2 :
  (∀ x, x ∈ sources1 ↔ x ∈ sources2) →
  add_pure ps sources1 = add_pure ps sources2.
Proof.
  intros Hsame.
  apply PathSet_eq; intros x;
    [rewrite !(proj1 (elem_of_add_pure _ _ _))
    |rewrite !(proj1 (proj2 (elem_of_add_pure _ _ _)))
    |rewrite !(proj2 (proj2 (elem_of_add_pure _ _ _)))];
    by setoid_rewrite Hsame.
Qed.

(** X4.  [add] is a union: adding two lists one after the other is
    adding their concatenation, adding a list a second time changes
    nothing, and two lists with the same members, in any order and with
    any repetitions, build the same set. *)
Theorem add_same_specifiers st self ps sources1 sources2 :
  heap st !! self = Some ps →
  add self (sources1 ++ sources2) st
    = (add self sources1 ;; add self sources2) st ∧
  (add self sources1 ;; add self sources1) st = add self sources1 st ∧
  ((∀ x, x ∈ sources1 ↔ x ∈ sources2) →
   add self sources1 st = add self sources2 st).
Proof.
  intros Hself.
  assert (self < length (heap st)) as Hlt by by eapply lookup_lt_Some.
  assert (∀ l1 l2, (add self l1 ;; add self l2) st =
                   Ok tt (mkState (<[self := add_pure ps (l1 ++ l2)]> (heap st))
                                  (out st))) as Hseq.
  { intros l1 l2. erewrite bind_Ok by (by apply add_run).
    erewrite add_run by (simpl; by apply list_lookup_insert_eq).
    simpl. by rewrite list_insert_insert_eq, add_pure_app. }
  split_and!.
  - rewrite Hseq. by apply add_run.
  - rewrite Hseq. erewrite add_run by done. do 3 f_equal.
    apply add_pure_same. intros x. rewrite elem_of_app. tauto.
  - intros Hsame. erewrite !add_run by done. do 3 f_equal.
    by apply add_pure_same.
Qed.

(** X5.  [PathSet(sources)] makes a new object and touches no other.
    Every source sits in it, in the set its kind assigns; its globs are
    exactly the expanded sources that contain a wildcard, and every
    directory or file entry is the path of an expanded source without
    one. *)
Theorem PathSet_init_holds_sources sources st :
  ∃ ps,
    PathSet_init sources st =
      Ok (length (heap st)) (mkState (heap st ++ [ps]) (out st)) ∧
    (∀ s, s ∈ sources → entered s ps) ∧
    (∀ g, g ∈ globs ps ↔
          ∃ s, s ∈ sources ∧ g = expandvars s ∧ str_in "*" g = true) ∧
    (∀ x, x ∈ dirs ps ∪ files ps →
          ∃ s, s ∈ sources ∧ x = Path (expandvars s) ∧
               str_in "*" (expandvars s) = false).
Proof.
  exists (add_pure empty_PathSet sources). split_and!.
  - apply PathSet_init_run.
  - intros s Hs. by apply entered_add_pure.
  - intros g. rewrite (proj2 (proj2 (elem_of_add_pure _ _ _))). simpl.
    unfold code_kind. split.
    + intros [?%elem_of_empty|(s & Hs & Hk & ->)]; [done|].
      exists s. split_and!; [done..|].
      by destruct (str_in "*" (expandvars s)); [|destruct (_ || _)].
    + intros (s & Hs & -> & Hstar). right. exists s. by rewrite Hstar.
  - intros x [Hx|Hx]%elem_of_union.
    + apply elem_of_add_pure in Hx as [?%elem_of_empty|(s & Hs & Hk & ->)];
        [done|].
      exists s. split_and!; [done..|]. unfold code_kind in Hk.
      by destruct (str_in "*" (expandvars s)).
    + apply elem_of_add_pure in Hx as [?%elem_of_empty|(s & Hs & Hk & ->)];
        [done|].
      exists s. split_and!; [done..|]. unfold code_kind in Hk.
      by destruct (str_in "*" (expandvars s)).
Qed.

Lemma substring_of_refl s : substring_of s s.
Proof. apply str_in_spec, str_in_refl. Qed.

Lemma prune_pure_self ps : prune_pure ps ps = empty_PathSet.
Proof.
  apply PathSet_eq; intros x; simpl; split; try by intros ?%elem_of_empty.
  - intros [Hx Hnot]%elem_of_dirs_prune. destruct Hnot.
    exists x. split; [done|apply substring_of_refl].
  - intros [Hx Hnot]%elem_of_files_prune. destruct Hnot. by right.
  - by intros [Hx Hnot]%elem_of_globs_prune.
Qed.

Lemma prune_pure_twice ps pv :
  prune_pure (prune_pure ps pv) pv = prune_pure ps pv.
Proof.
  apply PathSet_eq; intros x.
  - rewrite !elem_of_dirs_prune. tauto.
  - rewrite !elem_of_files_prune. tauto.
  - rewrite !elem_of_globs_prune. tauto.
Qed.

Lemma prune_pure_empty ps : prune_pure ps empty_PathSet = ps.
Proof.
  apply PathSet_eq; intros x.
  - rewrite elem_of_dirs_prune. simpl. split; [tauto|].
    intros Hx. split; [done|]. by intros (y & ?%elem_of_empty & _).
  - rewrite elem_of_files_prune. simpl. split; [tauto|].
    intros Hx. split; [done|].
    by intros [(y & ?%elem_of_empty & _)|?%elem_of_empty].
  - rewrite elem_of_globs_prune. simpl. split; [tauto|].
    intros Hx. split; [done|]. by intros ?%elem_of_empty.
Qed.

Lemma prune_pure_included ps pv : included (prune_pure ps pv) ps.
Proof.
  unfold included. split_and!; intros x.
  - by intros [? _]%elem_of_dirs_prune.
  - by intros [? _]%elem_of_files_prune.
  - by intros [? _]%elem_of_globs_prune.
Qed.

(** X6.  [prune] only removes: what it leaves in [self] is included in
    what was there; pruning a second time against the same set changes
    nothing more; and pruning against an empty set changes nothing. *)
Theorem prune_shrinks_once st self other self_v other_v :
  heap st !! self = Some self_v →
  heap st !! other = Some other_v →
  (∃ st' self_v', prune self other st = Ok tt st' ∧
                  heap st' !! self = Some self_v' ∧
                  included self_v' self_v) ∧
  (prune self other ;; prune self other) st = prune self other st ∧
  (other_v = empty_PathSet → prune self other st = Ok tt st).
Proof.
  intros Hself Hother.
  assert (self < length (heap st)) as Hlt by by eapply lookup_lt_Some.
  rewrite (prune_run _ _ _ _ _ Hself Hother). split_and!.
  - eexists _, _. split_and!; [done| |apply prune_pure_included].
    simpl. by apply list_lookup_insert_eq.
  - erewrite bind_Ok by (by apply prune_run).
    destruct (decide (self = other)) as [->|Hne].
    + assert (self_v = other_v) as -> by congruence.
      erewrite prune_run by (simpl; by apply list_lookup_insert_eq).
      simpl. by rewrite list_insert_insert_eq, !prune_pure_self.
    + erewrite prune_run;
        [|simpl; by apply list_lookup_insert_eq
         |simpl; by rewrite list_lookup_insert_ne].
      simpl. by rewrite list_insert_insert_eq, prune_pure_twice.
  - intros ->. by rewrite prune_pure_empty, list_insert_id, state_eta.
Qed.

(** X7.  Pruning a set against itself empties it: every directory
    contains its own string, every file and glob equals itself. *)
Theorem prune_self_empties st self self_v :
  heap st !! self = Some self_v →
  prune self self st =
    Ok tt (mkState (<[self := empty_PathSet]> (heap st)) (out st)).
Proof.
  intros Hself. rewrite (prune_run _ _ _ _ _ Hself Hself).
  by rewrite prune_pure_self.
Qed.




End Sets.

Lemma add_same_specifiers_witness :
  add 0 (["proj"; "*.py"] ++ ["*.py"; "proj"; "proj"]) one_empty
    = (add 0 ["proj"; "*.py"] ;; add 0 ["*.py"; "proj"; "proj"]) one_empty ∧
  (add 0 ["proj"; "*.py"] ;; add 0 ["proj"; "*.py"]) one_empty
    = add 0 ["proj"; "*.py"] one_empty ∧
  ((∀ x, x ∈ ["proj"; "*.py"] ↔ x ∈ ["*.py"; "proj"; "proj"]) →
   add 0 ["proj"; "*.py"] one_empty = add 0 ["*.py"; "proj"; "proj"] one_empty).
Proof.
  apply (add_same_specifiers (H := project_posix) one_empty 0 empty_PathSet
           ["proj"; "*.py"] ["*.py"; "proj"; "proj"]).
  reflexivity.
Defined.

Lemma prune_shrinks_once_witness :
  (∃ st' self_v', prune 0 1 two_sets = Ok tt st' ∧
                  heap st' !! 0 = Some self_v' ∧
                  included self_v' sample_source) ∧
  (prune 0 1 ;; prune 0 1) two_sets = prune 0 1 two_sets ∧
  (sample_prune = empty_PathSet → prune 0 1 two_sets = Ok tt two_sets).
Proof.
  apply (prune_shrinks_once two_sets 0 1 sample_source sample_prune);
    reflexivity.
Defined.

Lemma prune_self_empties_witness :
  prune 0 0 two_sets =
    Ok tt (mkState (<[0 := empty_PathSet]> (heap two_sets)) (out two_sets)).
Proof. apply (prune_self_empties two_sets 0 sample_source). reflexivity. Defined.
(** ** More on the license mutation *)

Section MoreLicense.
Context `{Posix}.


Lemma add_license_loop_changes license_text files disk k :
  (add_license_loop license_text files disk).1 !! k = disk !! k ∨
  ∃ file file_text,
    file ∈ files ∧ path_resolve file = k ∧
    disk !! k = Some file_text ∧
    str_in license_text file_text = false ∧
    (add_license_loop license_text files disk).1 !! k
      = Some (license_text +:+ file_text).
Proof.
  revert disk. induction files as [|file files IH]; intros disk; simpl;
    [by left|].
  unfold read_text.
  destruct (disk !! path_resolve file) as [file_text|] eqn:Hfile; [|by left].
  destruct (str_in license_text file_text) eqn:Hhas; simpl.
  - destruct (IH disk) as [Hsame|(f & t & Hf & Hk & Ht & Hno & Hnew)];
      [by left|right].
    exists f, t. split_and!; [by right|done..].
  - unfold write_text.
    destruct (decide (path_resolve file = k)) as [<-|Hne].
    + right. exists file, file_text. split_and!; [by left|done..|].
      apply add_license_loop_keeps; [apply lookup_insert_eq|apply str_in_app_l].
    + destruct (IH (<[path_resolve file := license_text +:+ file_text]> disk))
        as [Hsame|(f & t & Hf & Hk & Ht & Hno & Hnew)].
      * left. by rewrite Hsame, lookup_insert_ne.
      * right. exists f, t. rewrite lookup_insert_ne in Ht by done.
        split_and!; [by right|done..].
Qed.

(** X9.  [add_license] changes a file at most once and only by
    prepending: whatever the list of files, the content of a path
    afterwards is its content before, or the license text followed by
    its content before, the latter only for a listed file that lacked
    the text.  In particular a path without content gets none, and a
    path that is not listed is left alone. *)
Theorem add_license_prepends_once license files disk k :
  (add_license license files disk).1 !! k = disk !! k ∨
  ∃ file license_text file_text,
    file ∈ files ∧ path_resolve file = k ∧
    read_text disk license = Some license_text ∧
    disk !! k = Some file_text ∧
    ¬ substring_of license_text file_text ∧
    (add_license license files disk).1 !! k
      = Some (license_text +:+ file_text).
Proof.
  unfold add_license.
  destruct (read_text disk license) as [license_text|] eqn:Hlic; [|by left].
  destruct (add_license_loop_changes license_text files disk k)
    as [Hsame|(f & t & Hf & Hk & Ht & Hno & Hnew)]; [by left|right].
  exists f, license_text, t. split_and!; try done.
  intros Hsub%str_in_spec. congruence.
Qed.

Lemma add_license_loop_done license_text files disk disk' :
  add_license_loop license_text files disk = (disk', true) →
  ∀ file, file ∈ files →
    ∃ text, read_text disk' file = Some text ∧
            str_in license_text text = true.
Proof.
  revert disk. induction files as [|file files IH]; intros disk; simpl.
  { by intros _ f ?%elem_of_nil. }
  unfold read_text.
  destruct (disk !! path_resolve file) as [file_text|] eqn:Hfile; [|done].
  destruct (str_in license_text file_text) eqn:Hhas; simpl.
  - intros Hrun f [->|Hf]%elem_of_cons; [|by eapply IH].
    exists file_text. split; [|done].
    pose proof (add_license_loop_keeps license_text files disk
                  (path_resolve file) file_text Hfile Hhas) as Hkeep.
    by rewrite Hrun in Hkeep.
  - intros Hrun f [->|Hf]%elem_of_cons; [|by eapply IH].
    exists (license_text +:+ file_text). split; [|apply str_in_app_l].
    pose proof (add_license_loop_keeps license_text files
                  (write_text disk file (license_text +:+ file_text))
                  (path_resolve file) (license_text +:+ file_text)) as Hkeep.
    rewrite Hrun in Hkeep. apply Hkeep; [apply lookup_insert_eq|].
    apply str_in_app_l.
Qed.

(** X10.  When [add_license] runs to its end, every listed file contains
    the license text, and the license file still holds that text. *)
Theorem add_license_done license files disk disk' license_text :
  read_text disk license = Some license_text →
  add_license license files disk = (disk', true) →
  read_text disk' license = Some license_text ∧
  ∀ file, file ∈ files →
    ∃ text, read_text disk' file = Some text ∧
            substring_of license_text text.
Proof.
  intros Hlic. unfold add_license. rewrite Hlic. intros Hrun. split.
  - pose proof (add_license_loop_keeps license_text files disk
                  (path_resolve license) license_text Hlic
                  (str_in_refl license_text)) as Hkeep.
    by rewrite Hrun in Hkeep.
  - intros file Hfile.
    destruct (add_license_loop_done _ _ _ _ Hrun file Hfile) as (t & ? & ?).
    exists t. by rewrite <- str_in_spec.
Qed.

Lemma add_license_loop_stops license_text files disk disk' :
  add_license_loop license_text files disk = (disk', false) →
  ∃ before file after,
    files = before ++ file :: after ∧
    add_license_loop license_text before disk = (disk', true) ∧
    read_text disk' file = None.
Proof.
  revert disk. induction files as [|file files IH]; intros disk; simpl; [done|].
  destruct (read_text disk file) as [file_text|] eqn:Hfile.
  - destruct (negb (str_in license_text file_text)) eqn:Hhas;
      intros (before & f & after & -> & Hrun & Hnone)%IH;
      exists (file :: before), f, after; (split; [done|]); simpl;
      by rewrite Hfile, Hhas.
  - intros [= <-]. by exists [], file, files.
Qed.

(** X11.  When [add_license] stops at a file it cannot read, the files
    listed before it have been processed as by a complete run on them
    alone, and nothing else has happened: the files listed after it are
    not looked at. *)
Theorem add_license_stops license files disk disk' license_text :
  read_text disk license = Some license_text →
  add_license license files disk = (disk', false) →
  ∃ before file after,
    files = before ++ file :: after ∧
    add_license license before disk = (disk', true) ∧
    read_text disk' file = None.
Proof.
  intros Hlic. unfold add_license. rewrite Hlic.
  apply add_license_loop_stops.
Qed.

Lemma add_license_loop_reads license_text files disk :
  (add_license_loop license_text files disk).2 = true ↔
  ∀ file, file ∈ files → is_Some (read_text disk file).
Proof.
  revert disk. induction files as [|file files IH]; intros disk; simpl.
  { split; [|done]. by intros _ f ?%elem_of_nil. }
  destruct (read_text disk file) as [file_text|] eqn:Hfile; simpl.
  - assert (∀ disk0,
              (∀ f, is_Some (read_text disk0 f) ↔ is_Some (read_text disk f)) →
              ((add_license_loop license_text files disk0).2 = true ↔
               ∀ f, f ∈ file :: files → is_Some (read_text disk f)))
      as Hstep.
    { intros disk0 Hdom. rewrite IH. split.
      - intros Hall f [->|Hf]%elem_of_cons; [by rewrite Hfile|].
        by apply Hdom, Hall.
      - intros Hall f Hf. apply Hdom, Hall. by right. }
    destruct (negb (str_in license_text file_text)); apply Hstep; [|done].
    intros f. unfold read_text, write_text in *.
    destruct (decide (path_resolve file = path_resolve f)) as [<-|Hne].
    + rewrite lookup_insert_eq, Hfile. by split; eexists.
    + by rewrite lookup_insert_ne.
  - split; [done|]. intros Hall.
    destruct (Hall file) as [t Ht]; [by left|congruence].
Qed.

Lemma add_license_loop_final license_text files disk disk' k :
  add_license_loop license_text files disk = (disk', true) →
  disk' !! k =
    if bool_decide (k ∈ path_resolve <$> files)
    then (λ text, if str_in license_text text then text
                  else license_text +:+ text) <$> disk !! k
    else disk !! k.
Proof.
  intros Hrun.
  destruct (add_license_loop_changes license_text files disk k)
    as [Hsame|(f & t & Hf & Hk & Ht & Hno & Hnew)];
    rewrite Hrun in *; simpl in *.
  - case_bool_decide as Hin; [|done].
    apply list_elem_of_fmap in Hin as (f & -> & Hf).
    destruct (add_license_loop_done _ _ _ _ Hrun f Hf) as (text & Hread & Hhas).
    unfold read_text in Hread. rewrite Hsame in Hread.
    by rewrite Hsame, Hread; simpl; rewrite Hhas.
  - rewrite bool_decide_eq_true_2
      by (apply list_elem_of_fmap; by exists f).
    by rewrite Hnew, Ht; simpl; rewrite Hno.
Qed.

(** X17.  When [add_license] runs to its end, the disk it leaves depends
    only on which files are listed, not on their order nor on how often
    each occurs: from the same disk, a run on any list with the same
    members also runs to its end, and leaves the same disk.  So the
    outcome of a complete licensing run does not depend on the order in
    which the traversal yields the files. *)
Theorem add_license_any_order license files1 files2 disk disk' :
  (∀ file, file ∈ files1 ↔ file ∈ files2) →
  add_license license files1 disk = (disk', true) →
  add_license license files2 disk = (disk', true).
Proof.
  intros Hsame. unfold add_license.
  destruct (read_text disk license) as [license_text|]; [|done].
  intros Hrun.
  destruct (add_license_loop license_text files2 disk) as [disk2 done2]
    eqn:Hrun2.
  assert (done2 = true) as ->.
  { pose proof (proj1 (add_license_loop_reads license_text files1 disk))
      as Hreads.
    rewrite Hrun in Hreads.
    pose proof (proj2 (add_license_loop_reads license_text files2 disk))
      as Hreads2.
    rewrite Hrun2 in Hreads2. apply Hreads2.
    intros f Hf. apply Hreads; [done|]. by apply Hsame. }
  f_equal. apply map_eq. intros k.
  rewrite (add_license_loop_final _ _ _ _ k Hrun2),
          (add_license_loop_final _ _ _ _ k Hrun).
  apply (f_equal (λ b : bool, if b then _ else _)).
  apply bool_decide_ext. rewrite !list_elem_of_fmap.
  split; intros (f & ? & ?); exists f; (split; [done|]); by apply Hsame.
Qed.

End MoreLicense.

Lemma add_license_done_witness :
  read_text licensed_disk "LICENSE" = Some "# MIT licence;" ∧
  ∀ file, file ∈ ["/w/proj/a.py"; "/w/LICENSE"; "/w/proj/a.py"] →
    ∃ text, read_text licensed_disk file = Some text ∧
            substring_of "# MIT licence;" text.
Proof.
  apply (add_license_done (H := project_posix) "LICENSE"
           ["/w/proj/a.py"; "/w/LICENSE"; "/w/proj/a.py"] sample_disk
           licensed_disk "# MIT licence;");
    vm_compute; reflexivity.
Defined.

Lemma add_license_stops_witness :
  ∃ before file after,
    ["/w/proj/a.py"; "/w/proj/gone.py"; "/w/LICENSE"]
      = before ++ file :: after ∧
    add_license "LICENSE" before sample_disk = (stopped_disk, true) ∧
    read_text stopped_disk file = None.
Proof.
  apply (add_license_stops (H := project_posix) "LICENSE"
           ["/w/proj/a.py"; "/w/proj/gone.py"; "/w/LICENSE"] sample_disk
           stopped_disk "# MIT licence;");
    vm_compute; reflexivity.
Defined.

Lemma add_license_any_order_witness :
  add_license "LICENSE" ["/w/LICENSE"; "/w/proj/a.py"] sample_disk
    = (licensed_disk, true).
Proof.
  apply (add_license_any_order (H := project_posix) "LICENSE"
           ["/w/proj/a.py"; "/w/LICENSE"; "/w/proj/a.py"]
           ["/w/LICENSE"; "/w/proj/a.py"] sample_disk licensed_disk).
  - intros file. rewrite !elem_of_cons, !elem_of_nil. tauto.
  - vm_compute. reflexivity.
Defined.
(** ** File types and comment symbols *)

Lemma first_key_holding_Some x table key :
  first_key_holding x table = Some key →
  ∃ values, (key, values) ∈ table ∧ x ∈ values.
Proof.
  induction table as [|[k vs] table IH]; simpl; [done|].
  case_bool_decide as Hin.
  - intros [= <-]. exists vs. split; [by left|done].
  - intros (values & ? & ?)%IH. exists values. split; [by right|done].
Qed.

Lemma first_key_holding_None x table :
  first_key_holding x table = None ↔
  ∀ key values, (key, values) ∈ table → x ∉ values.
Proof.
  induction table as [|[k vs] table IH]; simpl.
  - split; [|done]. by intros _ key values ?%elem_of_nil.
  - case_bool_decide as Hin.
    + split; [done|]. intros Hall. destruct (Hall k vs); [by left|done].
    + rewrite IH. split.
      * intros Hall key values [[= -> ->]|?]%elem_of_cons; [done|by eapply Hall].
      * intros Hall key values ?. eapply Hall. by right.
Qed.

(** X12.  [get_file_type_from_filename] returns a file type whose
    extension set holds the suffix of the file, without its period; it
    raises exactly when the file has no suffix or no type lists it.  The
    first type in table order wins: a [.h] file is C, and C++ is returned
    for [cxx], [cpp], [hpp] and [cc] only. *)
Theorem file_type_of_extension file :
  (∀ file_type,
     get_file_type_from_filename file = inr file_type →
     suffix file ≠ "" ∧
     ∃ exts, (file_type, exts) ∈ FILE_TYPE_TO_EXT_MAP ∧
             str_tail (suffix file) ∈ exts) ∧
  (∀ e, get_file_type_from_filename file = inl e →
     e = UnknownFileType file ∧
     (suffix file = "" ∨
      ∀ file_type exts, (file_type, exts) ∈ FILE_TYPE_TO_EXT_MAP →
                        str_tail (suffix file) ∉ exts)) ∧
  (suffix file = ".h" → get_file_type_from_filename file = inr "c") ∧
  (get_file_type_from_filename file = inr "c++" ↔
   str_tail (suffix file) ∈ ({["cxx"; "cpp"; "hpp"; "cc"]} : gset string) ∧
   suffix file ≠ "").
Proof.
  unfold get_file_type_from_filename. split_and!.
  - intros file_type. case_bool_decide as Hs; [|done].
    destruct (first_key_holding _ _) as [t|] eqn:Hfind; [|done].
    intros [= <-]. split; [done|]. by apply first_key_holding_Some.
  - intros e. case_bool_decide as Hs.
    + destruct (first_key_holding _ _) as [t|] eqn:Hfind; [done|].
      intros [= <-]. split; [done|]. right.
      by apply first_key_holding_None.
    + intros [= <-]. split; [done|]. left.
      destruct (decide (suffix file = "")); [done|]. by destruct Hs.
  - intros ->. vm_compute. reflexivity.
  - case_bool_decide as Hs; [|split; [done|tauto]].
    generalize (str_tail (suffix file)). intros ext.
    cbn [first_key_holding FILE_TYPE_TO_EXT_MAP].
    repeat case_bool_decide;
      (split; [intros [=]; try (split; [set_solver|done])
              |intros [Hin _]; try done; exfalso; set_solver]).
Qed.
(** X13.  Every file type that [get_file_type_from_filename] can return
    has a comment symbol: the enclosing triple for markdown, [//] for C
    and C++, [#] for the others.  So [get_comment_symbol_from_file] fails
    for an unknown file type only, never for want of a symbol. *)
Theorem comment_symbol_of_file file :
  (∀ file_type,
     get_file_type_from_filename file = inr file_type →
     get_comment_symbol_from_file file =
       inr (if bool_decide (file_type = "markdown")
            then EnclosingSymbol "<--" " " "-->"
            else if bool_decide (file_type ∈ ["c"; "c++"])
                 then LineSymbol "//" else LineSymbol "#")) ∧
  (∀ e, get_comment_symbol_from_file file = inl e →
        e = UnknownFileType file).
Proof.
  unfold get_comment_symbol_from_file.
  destruct (get_file_type_from_filename file) as [e|file_type] eqn:Htype.
  - split; [done|]. intros e' [= <-].
    unfold get_file_type_from_filename in Htype.
    by repeat case_match; simplify_eq.
  - assert (file_type ∈ FILE_TYPE_TO_EXT_MAP.*1) as Hknown.
    { unfold get_file_type_from_filename in Htype.
      case_bool_decide; [|done].
      destruct (first_key_holding _ _) as [t|] eqn:Hfind; [|done].
      injection Htype as ->.
      apply first_key_holding_Some in Hfind as (values & Hin & _).
      apply list_elem_of_fmap. by exists (file_type, values). }
    assert (∃ symbol, get_comment_symbol_from_file_type file_type = inr symbol ∧
              symbol = if bool_decide (file_type = "markdown")
                       then EnclosingSymbol "<--" " " "-->"
                       else if bool_decide (file_type ∈ ["c"; "c++"])
                            then LineSymbol "//" else LineSymbol "#")
      as (symbol & -> & ->).
    { simpl in Hknown.
      repeat (apply elem_of_cons in Hknown as [->|Hknown]);
        [eexists; split; vm_compute; reflexivity..|].
      by apply elem_of_nil in Hknown. }
    split; [by intros ? [= <-]|done].
Qed.

Lemma get_comment_symbol_from_text_cases text :
  get_comment_symbol_from_text text =
    if String.prefix "#" text then inr "#"
    else if String.prefix "//" text then inr "//"
    else inl UnknownCommentSymbol.
Proof.
  unfold get_comment_symbol_from_text. simpl.
  by destruct (String.prefix "#" text), (String.prefix "//" text).
Qed.

Lemma sub_line_starts_head old new text :
  old ≠ "" → String.prefix old text = true →
  ∃ rest, sub_line_starts old new text = new +:+ rest.
Proof.
  intros Hold Hprefix. unfold sub_line_starts.
  destruct text as [|c rest].
  - by destruct old.
  - cbn [sub_line_starts_from]. rewrite Hprefix. simpl. eauto.
Qed.

Lemma get_comment_symbol_from_text_inr text from_symbol :
  get_comment_symbol_from_text text = inr from_symbol →
  (from_symbol = "#" ∨ from_symbol = "//") ∧
  String.prefix from_symbol text = true.
Proof.
  rewrite get_comment_symbol_from_text_cases.
  destruct (String.prefix "#" text) eqn:H1; [intros [= <-]; auto|].
  destruct (String.prefix "//" text) eqn:H2; [intros [= <-]; auto|done].
Qed.

(** X14.  [change_comment_symbol] raises its own exception exactly when
    the text starts with neither [#] nor [//], whatever symbol is asked
    for.  It returns the text as it is when asked for the symbol the text
    already starts with.  When asked for [#] or [//] on a text that
    starts with one of them it returns a text, which starts with the
    symbol asked for, and on which asking again changes nothing.  The
    only other outcome of the embedding is the mark of a replacement
    that holds a backslash, where [re.sub] would read an escape. *)
Theorem change_comment_symbol_result text :
  (∀ to_symbol,
     change_comment_symbol text to_symbol = inl UnknownCommentSymbol ↔
     String.prefix "#" text = false ∧ String.prefix "//" text = false) ∧
  (∀ e to_symbol,
     change_comment_symbol text to_symbol = inl e →
     e = UnknownCommentSymbol ∨
     ∃ template,
       e = EscapeInTemplate template ∧ substring_of backslash template ∧
       (to_symbol = LineSymbol template ∨
        ∃ preamble closing,
          to_symbol = EnclosingSymbol preamble template closing)) ∧
  (∀ from_symbol,
     get_comment_symbol_from_text text = inr from_symbol →
     change_comment_symbol text (LineSymbol from_symbol) = inr text) ∧
  (∀ to,
     to = "#" ∨ to = "//" →
     String.prefix "#" text = true ∨ String.prefix "//" text = true →
     ∃ text',
       change_comment_symbol text (LineSymbol to) = inr text' ∧
       String.prefix to text' = true ∧
       get_comment_symbol_from_text text' = inr to ∧
       change_comment_symbol text' (LineSymbol to) = inr text').
Proof.
  assert (∀ e to_symbol,
     change_comment_symbol text to_symbol = inl e →
     (e = UnknownCommentSymbol ∧
      String.prefix "#" text = false ∧ String.prefix "//" text = false) ∨
     ∃ template,
       e = EscapeInTemplate template ∧ substring_of backslash template ∧
       (to_symbol = LineSymbol template ∨
        ∃ preamble closing,
          to_symbol = EnclosingSymbol preamble template closing)) as Herr.
  { intros e to_symbol. unfold change_comment_symbol.
    destruct (get_comment_symbol_from_text text) as [e'|from_symbol] eqn:Hfrom.
    - rewrite get_comment_symbol_from_text_cases in Hfrom.
      destruct (String.prefix "#" text); [done|].
      destruct (String.prefix "//" text); [done|].
      injection Hfrom as <-. intros [= <-]. by left.
    - case_bool_decide; [done|]. unfold re_sub_line_starts.
      destruct to_symbol as [to|preamble middle closing].
      + destruct (str_in backslash to) eqn:Hb; [|done].
        intros [= <-]. right. exists to.
        split_and!; [done|by apply str_in_spec|by left].
      + destruct (str_in backslash middle) eqn:Hb; [|done].
        intros [= <-]. right. exists middle.
        split_and!; [done|by apply str_in_spec|]. right. by eexists _, _. }
  split_and!.
  - intros to_symbol. split.
    + intros Hrun. destruct (Herr _ _ Hrun) as [(_ & ? & ?)|(? & [=] & _)].
      done.
    + intros [H1 H2]. unfold change_comment_symbol.
      by rewrite get_comment_symbol_from_text_cases, H1, H2.
  - intros e to_symbol Hrun.
    destruct (Herr _ _ Hrun) as [(? & _)|?]; [by left|by right].
  - intros from_symbol Hfrom. unfold change_comment_symbol. rewrite Hfrom.
    by rewrite bool_decide_eq_true_2.
  - intros to Hto Hstarts.
    assert (∀ text', String.prefix to text' = true →
              get_comment_symbol_from_text text' = inr to ∧
              change_comment_symbol text' (LineSymbol to) = inr text')
      as Hthen.
    { intros text' Hpre.
      assert (get_comment_symbol_from_text text' = inr to) as Hsym.
      { rewrite get_comment_symbol_from_text_cases.
        destruct Hto as [-> | ->]; [by rewrite Hpre|].
        rewrite Hpre. apply prefix_spec in Hpre as [post ->].
        rewrite !app_String. simpl. done. }
      split; [done|]. unfold change_comment_symbol. rewrite Hsym.
      by rewrite bool_decide_eq_true_2. }
    destruct (get_comment_symbol_from_text text) as [e|from_symbol] eqn:Hfrom.
    { rewrite get_comment_symbol_from_text_cases in Hfrom.
      destruct Hstarts as [H1|H2]; [by rewrite H1 in Hfrom|].
      rewrite H2 in Hfrom. by destruct (String.prefix "#" text). }
    apply get_comment_symbol_from_text_inr in Hfrom as Hwhich.
    destruct Hwhich as [Hwhich Hpre].
    assert (∃ text', change_comment_symbol text (LineSymbol to) = inr text' ∧
                     String.prefix to text' = true) as (text' & Hrun & Hpre').
    { unfold change_comment_symbol. rewrite Hfrom.
      case_bool_decide as Hsame.
      - injection Hsame as ->. by exists text.
      - unfold re_sub_line_starts.
        assert (str_in backslash to = false) as ->
          by (by destruct Hto as [-> | ->]).
        assert (from_symbol ≠ "") as Hne by (by destruct Hwhich as [-> | ->]).
        destruct (sub_line_starts_head from_symbol to text Hne Hpre)
          as (rest & Hsub).
        exists (sub_line_starts from_symbol to text). split; [done|].
        rewrite Hsub. apply (proj2 (prefix_spec _ _)). by exists rest. }
    exists text'. split; [done|]. split; [done|]. by apply Hthen.
Qed.
(** ** The entry point *)

Lemma compare_Lt_trans (s1 s2 s3 : string) :
  String.compare s1 s2 = Lt → String.compare s2 s3 = Lt →
  String.compare s1 s3 = Lt.
Proof.
  intros H12 H23.
  assert (String.le s1 s3) as H13.
  { transitivity s2; unfold String.le, String.leb; [by rewrite H12|by rewrite H23]. }
  unfold String.le, String.leb in H13.
  destruct (String.compare s1 s3) eqn:Hc; [|done..].
  apply String.compare_eq_iff in Hc as ->.
  rewrite String.compare_antisym, H23 in H12. done.
Qed.

Lemma parts_leb_total parts1 parts2 :
  parts_leb parts1 parts2 = true ∨ parts_leb parts2 parts1 = true.
Proof.
  revert parts2. induction parts1 as [|p1 parts1 IH]; intros [|p2 parts2];
    simpl; auto.
  rewrite (String.compare_antisym p2 p1).
  destruct (String.compare p1 p2); simpl; auto.
Qed.

Lemma parts_leb_trans parts1 parts2 parts3 :
  parts_leb parts1 parts2 = true → parts_leb parts2 parts3 = true →
  parts_leb parts1 parts3 = true.
Proof.
  revert parts2 parts3.
  induction parts1 as [|p1 parts1 IH]; intros [|p2 parts2] [|p3 parts3];
    simpl; try done.
  destruct (String.compare p1 p2) eqn:H12; [..|done].
  - apply String.compare_eq_iff in H12 as ->.
    destruct (String.compare p2 p3); [|done..]. apply IH.
  - destruct (String.compare p2 p3) eqn:H23; [..|done].
    + apply String.compare_eq_iff in H23 as ->. by rewrite H12.
    + by rewrite (compare_Lt_trans _ _ _ H12 H23).
Qed.

#[local] Instance path_le_total : Total path_le.
Proof. intros p q. apply parts_leb_total. Qed.

#[local] Instance path_le_trans : Transitive path_le.
Proof. intros p q r. apply parts_leb_trans. Qed.

Section MainRuns.
Context `{Posix}.

Lemma main_files_yields fuel sources prune recurse :
  ending_of (main_files fuel sources prune recurse initial_state) =
    (walk_behaviour []
       (traverse_pure fuel (add_pure empty_PathSet sources)
                      (add_pure empty_PathSet prune) recurse)).1 ∧
  yielded (main_files fuel sources prune recurse initial_state) =
    yields (traverse_pure fuel (add_pure empty_PathSet sources)
                          (add_pure empty_PathSet prune) recurse).
Proof.
  pose proof (main_files_behaviour fuel sources prune recurse initial_state)
    as Hb.
  unfold behaviour in Hb. cbn [out initial_state] in Hb.
  destruct (traverse_pure _ _ _ _); cbn [walk_behaviour yields fst app] in *;
    by injection Hb as -> ->.
Qed.

Lemma main_files_kept fuel sources prune recurse file x :
  file ∈ yielded (main_files fuel sources prune recurse initial_state) →
  x ∈ prune →
  match code_kind (expandvars x) with
  | AsDir =>
      ∀ r, resolve_path (Path (expandvars x)) = Some r → ¬ substring_of r file
  | AsFile => ∀ r, resolve_path (Path (expandvars x)) = Some r → file ≠ r
  | AsGlob => True
  end.
Proof.
  rewrite (proj2 (main_files_yields _ _ _ _)). unfold traverse_pure.
  destruct (prepare _) as [source_v|]; [|by intros ?%elem_of_nil].
  destruct (validate_pure _); [by intros ?%elem_of_nil|].
  destruct (resolve_pure (add_pure empty_PathSet prune)) as [prune_v|] eqn:Hpv;
    [|by intros ?%elem_of_nil].
  intros Hy. apply _traverse_pure_kept in Hy.
  apply (keeps_file_resolved _ _ _ Hpv) in Hy as [Hd Hf]. intros Hx.
  destruct (code_kind (expandvars x)) eqn:Hk; [done|..].
  - intros r. apply Hd, elem_of_add_pure. right. by exists x.
  - intros r. apply Hf, elem_of_add_pure. right. by exists x.
Qed.

(** X15.  [main] changes the content of files in add mode only, neither
    when listing nor when deleting; and there it changes a path only by
    prepending the license text, once, to the content of a file the
    traversal yielded that lacked the text.  Such a file is outside
    every prune directory and is no prune file: its path contains the
    resolved form of no prune specifier taken as a directory, and is the
    resolved form of none taken as a file. *)
Theorem main_changes_only_yielded fuel a disk disk' printed s k :
  main fuel a disk = Some (disk', printed, s) →
  disk' !! k = disk !! k ∨
  (arg_list_files a = false ∧ arg_delete a = false ∧
   ∃ file license_text file_text,
     file ∈ yielded (main_files fuel (arg_sources a) (arg_prune a)
                                (arg_recurse a) initial_state) ∧
     path_resolve file = k ∧
     read_text disk (Path (arg_license_file a)) = Some license_text ∧
     disk !! k = Some file_text ∧
     ¬ substring_of license_text file_text ∧
     disk' !! k = Some (license_text +:+ file_text) ∧
     ∀ x, x ∈ arg_prune a →
       match code_kind (expandvars x) with
       | AsDir =>
           ∀ r, resolve_path (Path (expandvars x)) = Some r →
                ¬ substring_of r file
       | AsFile =>
           ∀ r, resolve_path (Path (expandvars x)) = Some r → file ≠ r
       | AsGlob => True
       end).
Proof.
  unfold main.
  set (files := main_files _ _ _ _ _).
  destruct (arg_list_files a) eqn:Hlist.
  { destruct files; intros [= <- _ _]; by left. }
  destruct (arg_delete a) eqn:Hdel.
  { destruct (remove_license _ _ _); [|intros [= <- _ _]; by left].
    destruct files; intros [= <- _ _]; by left. }
  destruct (read_text disk _) as [license_text|] eqn:Hlic;
    [|intros [= <- _ _]; by left].
  intros Hrun.
  assert (disk' = (add_license_loop license_text (yielded files) disk).1)
    as ->.
  { unfold add_license in Hrun. rewrite Hlic in Hrun.
    destruct files; [| |done];
      destruct (add_license_loop _ _ _) as [d []]; simpl in *; congruence. }
  destruct (add_license_loop_changes license_text (yielded files) disk k)
    as [Hsame|(f & t & Hf & Hk & Ht & Hno & Hnew)]; [by left|right].
  split_and!; [done..|].
  exists f, license_text, t. split_and!; try done.
  - intros Hsub%str_in_spec. congruence.
  - intros x Hx. by eapply main_files_kept.
Qed.






End MainRuns.

Lemma main_changes_only_yielded_witness :
  added_disk !! "/w/proj/a.py" = sample_disk !! "/w/proj/a.py" ∨
  (arg_list_files add_args = false ∧ arg_delete add_args = false ∧
   ∃ file license_text file_text,
     file ∈ yielded (main_files 6 (arg_sources add_args) (arg_prune add_args)
                                (arg_recurse add_args) initial_state) ∧
     path_resolve file = "/w/proj/a.py" ∧
     read_text sample_disk (Path (arg_license_file add_args))
       = Some license_text ∧
     sample_disk !! "/w/proj/a.py" = Some file_text ∧
     ¬ substring_of license_text file_text ∧
     added_disk !! "/w/proj/a.py" = Some (license_text +:+ file_text) ∧
     ∀ x, x ∈ arg_prune add_args →
       match code_kind (expandvars x) with
       | AsDir =>
           ∀ r, resolve_path (Path (expandvars x)) = Some r →
                ¬ substring_of r file
       | AsFile =>
           ∀ r, resolve_path (Path (expandvars x)) = Some r → file ≠ r
       | AsGlob => True
       end).
Proof.
  apply (main_changes_only_yielded (H := project_posix) 6 add_args
           sample_disk added_disk [] Completed "/w/proj/a.py").
  vm_compute. reflexivity.
Defined.


